(** * Design-token and interlinking scripts: a shallow embedding

    The development follows the scripts of the two site bundles:

    - [design/tokens/index.ts]         theme selection ([setTheme], [getSavedTheme]);
    - [scripts/apply-tokens.js]        literal-to-token rewriting;
    - [scripts/verify-design-tokens.js] hardcoded / undefined / legacy token audit;
    - [scripts/check-links.js]         link extraction and link-map validation;
    - [scripts/apply-interlinking-map.js] breadcrumb insertion, link rewriting;
    - [scripts/audit-tokens.ts]        literal audit, line by line;
    - the theme switcher component     the caller of the theme functions.

    JavaScript strings are modelled as lists of code units ([text]); the
    regular expressions of the scripts are written as syntax trees and run by
    a backtracking matcher that follows the ECMAScript matching rules the
    scripts rely on (ordered alternation, greedy repetition, look-around,
    capture groups, [lastIndex]-driven global iteration). *)

From Stdlib Require Import Ascii String List Arith Lia Bool Sorted.
From stdpp Require Import gmap strings.
Import ListNotations.

Local Open Scope list_scope.

(** ** JavaScript text *)

Abbreviation text := (list ascii).

Definition txt (s : string) : text := list_ascii_of_string s.

(** The double-quote code unit, written by its code. *)
Definition dq : ascii := ascii_of_nat 34.
Definition nl : ascii := ascii_of_nat 10.

Definition text_eqb (a b : text) : bool := bool_decide (a = b).

(** [s.startsWith(p)] *)
Fixpoint startsWith (p s : text) : bool :=
  match p, s with
  | [], _ => true
  | _ :: _, [] => false
  | a :: p', b :: s' => Ascii.eqb a b && startsWith p' s'
  end.

(** [s.includes(p)]: [p] occurs somewhere in [s]. *)
Fixpoint includes (p s : text) : bool :=
  match s with
  | [] => startsWith p []
  | _ :: s' => startsWith p s || includes p s'
  end.

(** [s.indexOf(p)]: the first index at which [p] occurs, [None] for -1. *)
Fixpoint indexOf (p s : text) : option nat :=
  if startsWith p s then Some 0
  else match s with
       | [] => None
       | _ :: s' => option_map S (indexOf p s')
       end.

(** White space as [\s] and [trim] see it (the ASCII part). *)
Definition isSpace (c : ascii) : bool :=
  let n := nat_of_ascii c in
  (n =? 32) || ((9 <=? n) && (n <=? 13)).

Definition isDigit (c : ascii) : bool :=
  let n := nat_of_ascii c in (48 <=? n) && (n <=? 57).

Definition isUpper (c : ascii) : bool :=
  let n := nat_of_ascii c in (65 <=? n) && (n <=? 90).

Definition isLower (c : ascii) : bool :=
  let n := nat_of_ascii c in (97 <=? n) && (n <=? 122).

(** [\w] *)
Definition isWord (c : ascii) : bool :=
  isDigit c || isUpper c || isLower c || Ascii.eqb c "_".

Definition isHex (c : ascii) : bool :=
  let n := nat_of_ascii c in
  isDigit c || ((65 <=? n) && (n <=? 70)) || ((97 <=? n) && (n <=? 102)).

Definition toUpper (c : ascii) : ascii :=
  if isLower c then ascii_of_nat (nat_of_ascii c - 32) else c.

Fixpoint trimStart (s : text) : text :=
  match s with
  | c :: s' => if isSpace c then trimStart s' else s
  | [] => []
  end.

(** [s.trim()] *)
Definition trim (s : text) : text := rev (trimStart (rev (trimStart s))).

(** [content.substring(0, i).split('\n').length]: one more than the number
    of line feeds among the first [i] code units. *)
Definition lineCount (s : text) : nat :=
  S (length (List.filter (Ascii.eqb nl) s)).

Definition lineAt (content : text) (i : nat) : nat :=
  lineCount (firstn i content).

(** ** Regular expressions *)

Inductive regex : Type :=
| Empty
| Char (p : ascii -> bool)
| Seq (r1 r2 : regex)
| Or (r1 r2 : regex)
| Star (r : regex)
| Ahead (positive : bool) (r : regex)
| Behind1 (positive : bool) (p : ascii -> bool)
| Group (n : nat) (r : regex).

(** Matcher state: the code units already consumed (latest first), the code
    units still ahead, and the captures made so far (latest first). *)
Record MState : Type := mkState {
  before : text;
  after : text;
  groups : list (nat * text)
}.

Definition advance (c : ascii) (rest : text) (s : MState) : MState :=
  {| before := c :: before s; after := rest; groups := groups s |}.

Definition capture (n : nat) (s0 s1 : MState) : MState :=
  {| before := before s1;
     after := after s1;
     groups := (n, rev (firstn (length (before s1) - length (before s0)) (before s1)))
                 :: groups s1 |}.

(** Backtracking matcher in continuation-passing style.  [Star] is the
    greedy [*]: an iteration that consumes nothing is rejected, as the
    ECMAScript repeat matcher does, so the number of iterations is bounded
    by the number of code units ahead. *)
Fixpoint exec_at (r : regex) (k : MState -> option MState) (s : MState)
  : option MState :=
  match r with
  | Empty => k s
  | Char p =>
      match after s with
      | c :: rest => if p c then k (advance c rest s) else None
      | [] => None
      end
  | Seq a b => exec_at a (exec_at b k) s
  | Or a b =>
      match exec_at a k s with
      | Some e => Some e
      | None => exec_at b k s
      end
  | Star a =>
      (fix loop (fuel : nat) (s : MState) {struct fuel} : option MState :=
         match fuel with
         | 0 => k s
         | S fuel' =>
             match exec_at a
                     (fun s' => if length (after s') <? length (after s)
                                then loop fuel' s' else None) s with
             | Some e => Some e
             | None => k s
             end
         end) (length (after s)) s
  | Ahead positive a =>
      match exec_at a Some s with
      | Some _ => if positive then k s else None
      | None => if positive then None else k s
      end
  | Behind1 positive p =>
      let seen := match before s with
                  | c :: _ => p c
                  | [] => false
                  end in
      if Bool.eqb seen positive then k s else None
  | Group n a => exec_at a (fun s' => k (capture n s s')) s
  end.

(** Derived forms. *)
Definition Plus (r : regex) : regex := Seq r (Star r).
Definition Opt (r : regex) : regex := Or r Empty.

Fixpoint Times (n : nat) (r : regex) : regex :=
  match n with
  | 0 => Empty
  | S n' => Seq r (Times n' r)
  end.

(** [r{0,n}], greedy. *)
Fixpoint UpTo (n : nat) (r : regex) : regex :=
  match n with
  | 0 => Empty
  | S n' => Opt (Seq r (UpTo n' r))
  end.

(** [r{lo,hi}] *)
Definition Range (lo hi : nat) (r : regex) : regex :=
  Seq (Times lo r) (UpTo (hi - lo) r).

Definition Lit (c : ascii) : regex := Char (Ascii.eqb c).

(** A literal code unit under the [i] flag. *)
Definition LitI (c : ascii) : regex :=
  Char (fun x => Ascii.eqb (toUpper x) (toUpper c)).

Definition OneOf (cs : text) : regex :=
  Char (fun x => existsb (Ascii.eqb x) cs).

Definition NoneOf (cs : text) : regex :=
  Char (fun x => negb (existsb (Ascii.eqb x) cs)).

Fixpoint Str (s : text) : regex :=
  match s with
  | [] => Empty
  | c :: s' => Seq (Lit c) (Str s')
  end.

Fixpoint StrI (s : text) : regex :=
  match s with
  | [] => Empty
  | c :: s' => Seq (LitI c) (StrI s')
  end.

Fixpoint Alts (rs : list regex) : regex :=
  match rs with
  | [] => Char (fun _ => false)
  | [r] => r
  | r :: rs' => Or r (Alts rs')
  end.

Fixpoint Seqs (rs : list regex) : regex :=
  match rs with
  | [] => Empty
  | r :: rs' => Seq r (Seqs rs')
  end.

(** One successful match: where it starts, what it covers, its captures. *)
Record Match : Type := mkMatch {
  index : nat;
  matched : text;
  caps : list (nat * text)
}.

Definition matchFrom (bef : text) (e : MState) : Match :=
  {| index := length bef;
     matched := rev (firstn (length (before e) - length bef) (before e));
     caps := groups e |}.

Definition group (n : nat) (m : Match) : text :=
  match find (fun g => fst g =? n) (caps m) with
  | Some g => snd g
  | None => []
  end.

(** Global iteration, as [String.prototype.match] with the [g] flag and the
    [while ((m = re.exec(s)) !== null)] loop do it: try each index from
    [lastIndex] on, and after a match resume at its end (one further when
    the match is empty).  [skip] counts the code units still covered by the
    previous match. *)
Fixpoint scan (r : regex) (skip : nat) (bef aft : text) : list Match :=
  match skip with
  | S n =>
      match aft with
      | c :: rest => scan r n (c :: bef) rest
      | [] => []
      end
  | 0 =>
      match exec_at r Some (mkState bef aft []) with
      | Some e =>
          let m := matchFrom bef e in
          m :: match aft with
               | c :: rest => scan r (length (matched m) - 1) (c :: bef) rest
               | [] => []
               end
      | None =>
          match aft with
          | c :: rest => scan r 0 (c :: bef) rest
          | [] => []
          end
      end
  end.

(** [content.match(re)] for a global [re]; [null] is the empty list. *)
Definition matchAll (r : regex) (content : text) : list Match :=
  scan r 0 [] content.

(** [re.exec(content)] from index 0 for a regular expression without the
    [g] flag: the leftmost match. *)
Fixpoint execFrom (r : regex) (bef aft : text) : option Match :=
  match exec_at r Some (mkState bef aft []) with
  | Some e => Some (matchFrom bef e)
  | None =>
      match aft with
      | c :: rest => execFrom r (c :: bef) rest
      | [] => None
      end
  end.

(** [re.test(content)] for a regular expression without the [g] flag. *)
Definition test (r : regex) (content : text) : bool :=
  match execFrom r [] content with
  | Some _ => true
  | None => false
  end.

(** Replacement patterns of [String.prototype.replace]: [$$], [$&] and
    [$1]..[$9]; any other code unit stands for itself. *)
Fixpoint getSubstitution (m : Match) (repl : text) : text :=
  match repl with
  | [] => []
  | c :: rest =>
      if Ascii.eqb c "$" then
        match rest with
        | d :: rest' =>
            if Ascii.eqb d "$" then "$"%char :: getSubstitution m rest'
            else if Ascii.eqb d "&" then matched m ++ getSubstitution m rest'
            else if isDigit d && negb (Ascii.eqb d "0")
                    && (nat_of_ascii d - 48 <=? length (caps m))
                 then group (nat_of_ascii d - 48) m ++ getSubstitution m rest'
            else c :: getSubstitution m rest
        | [] => [c]
        end
      else c :: getSubstitution m rest
  end.

(** [content.replace(re, f)] for a global [re]. *)
Fixpoint replaceScan (r : regex) (f : Match -> text) (skip : nat)
  (bef aft : text) : text :=
  match skip with
  | S n =>
      match aft with
      | c :: rest => replaceScan r f n (c :: bef) rest
      | [] => []
      end
  | 0 =>
      match exec_at r Some (mkState bef aft []) with
      | Some e =>
          let m := matchFrom bef e in
          f m ++ match aft with
                 | c :: rest =>
                     (if length (matched m) =? 0 then [c] else [])
                       ++ replaceScan r f (length (matched m) - 1) (c :: bef) rest
                 | [] => []
                 end
      | None =>
          match aft with
          | c :: rest => c :: replaceScan r f 0 (c :: bef) rest
          | [] => []
          end
      end
  end.

Definition replaceAll (r : regex) (repl : text) (content : text) : text :=
  replaceScan r (fun m => getSubstitution m repl) 0 [] content.

(** [content.replace(re, f)] for a [re] without the [g] flag: only the first
    match is replaced. *)
Fixpoint replaceFirstFrom (r : regex) (f : Match -> text) (bef aft : text)
  : text :=
  match exec_at r Some (mkState bef aft []) with
  | Some e =>
      let m := matchFrom bef e in
      f m ++ skipn (length (matched m)) aft
  | None =>
      match aft with
      | c :: rest => c :: replaceFirstFrom r f (c :: bef) rest
      | [] => []
      end
  end.

Definition replaceFirst (r : regex) (repl : text) (content : text) : text :=
  replaceFirstFrom r (fun m => getSubstitution m repl) [] content.

(** ** Completion of a JavaScript call: a value or a thrown exception *)

Inductive Exn : Type :=
| StorageError
| ReadError (path : text)
| TypeError
| SyntaxError.

Inductive Js (A : Type) : Type :=
| Return (a : A)
| Throw (e : Exn).

Arguments Return {A} a.
Arguments Throw {A} e.

Definition bind {A B : Type} (m : Js A) (f : A -> Js B) : Js B :=
  match m with
  | Return a => f a
  | Throw e => Throw e
  end.

(** [try { m } catch (e) { h e }] *)
Definition tryCatch {A : Type} (m : Js A) (h : Exn -> Js A) : Js A :=
  match m with
  | Return a => Return a
  | Throw e => h e
  end.

Declare Scope js_scope.
Delimit Scope js_scope with js.
Notation "x <- m ;; k" := (bind m (fun x => k))
  (at level 100, m at next level, right associativity) : js_scope.

(** ** Theme selection ([design/tokens/index.ts]) *)

Module Theme.

Local Open Scope string_scope.

(** The members of the type [ThemeName]. *)
Definition ThemeName : list string :=
  ["current"; "theme-1"; "theme-2"; "theme-3"; "theme-4"; "theme-5"].

(** [document.documentElement.dataset.theme]; [None] while never set. *)
Record Document : Type := mkDocument {
  dataset_theme : option string
}.

(** The host's [localStorage]: its entries, and whether reading or
    writing it throws (storage disabled, quota exceeded, no such global). *)
Record Storage : Type := mkStorage {
  items : gmap string string;
  getItem_throws : bool;
  setItem_throws : bool
}.

(** The ambient state the module reads and writes; [document] is [None]
    where [typeof document === "undefined"]. *)
Record Env : Type := mkEnv {
  document : option Document;
  localStorage : Storage
}.

Definition getItem (key : string) (st : Storage) : Js (option string) :=
  if getItem_throws st then Throw StorageError
  else Return (items st !! key).

Definition setItem (key value : string) (st : Storage) : Js Storage :=
  if setItem_throws st then Throw StorageError
  else Return {| items := <[key := value]> (items st);
                 getItem_throws := getItem_throws st;
                 setItem_throws := setItem_throws st |}.

(** [setTheme(name)]; the result is the environment after the call. *)
Definition setTheme (name : string) (env : Env) : Js Env :=
  match document env with
  | None => Return env
  | Some _ =>
      let root := {| dataset_theme :=
                       Some (if String.eqb name "current" then "" else name) |} in
      tryCatch
        (bind (setItem "theme" name (localStorage env))
           (fun st => Return {| document := Some root; localStorage := st |}))
        (fun _ => Return {| document := Some root;
                            localStorage := localStorage env |})
  end.

(** [getSavedTheme()]; it does not change the environment. *)
Definition getSavedTheme (env : Env) : Js (option string) :=
  tryCatch
    (bind (getItem "theme" (localStorage env))
       (fun v =>
          match v with
          | Some v =>
              if String.eqb v "current" || String.eqb v "theme-1"
                 || String.eqb v "theme-2" || String.eqb v "theme-3"
                 || String.eqb v "theme-4" || String.eqb v "theme-5"
              then Return (Some v)
              else Return None
          | None => Return None
          end))
    (fun _ => Return None).

End Theme.

(** ** The theme switcher (the component that calls the theme functions) *)

Module ThemeSwitcher.

Local Open Scope string_scope.

(** The options of the select element. *)
Definition themes : list string :=
  ["current"; "theme-1"; "theme-2"; "theme-3"; "theme-4"; "theme-5"].

(** [getSavedTheme() || "current"]: null and the empty string are falsy. *)
Definition saved (env : Theme.Env) : Js string :=
  bind (Theme.getSavedTheme env)
    (fun v =>
       match v with
       | Some v => if String.eqb v "" then Return "current" else Return v
       | None => Return "current"
       end).

(** [onChange]: the value of the chosen option goes to [setTheme]. *)
Definition onChange (value : string) (env : Theme.Env) : Js Theme.Env :=
  Theme.setTheme value env.

End ThemeSwitcher.

(** ** Audit of token usage ([scripts/verify-design-tokens.js]) *)

(** The part of the host file system the scripts use. *)
Record FileSystem : Type := mkFs {
  readFileSync : text -> Js text;
  existsSync : text -> bool
}.

Module VerifyDesignTokens.

Local Open Scope string_scope.

Definition ws : regex := Star (Char isSpace).
Definition digits : regex := Plus (Char isDigit).
Definition digitsOrDots : regex :=
  Plus (Char (fun c => isDigit c || Ascii.eqb c ".")).

Definition notWordBehind : regex := Behind1 false isWord.
Definition notWordAhead : regex := Ahead false (Char isWord).

Definition oneOfWords (ws : list string) : regex :=
  Alts (map (fun w => Str (txt w)) ws).

(** [HARDCODED_PATTERNS], in the order of the source. *)
Definition HARDCODED_PATTERNS : list regex :=
  [ (* /#[0-9a-fA-F]{3,6}(?![a-fA-F0-9])/g *)
    Seqs [Lit "#"; Range 3 6 (Char isHex); Ahead false (Char isHex)];
    (* /rgba?\(\s*\d+\s*,\s*\d+\s*,\s*\d+\s*(?:,\s*[\d.]+)?\s*\)/g *)
    Seqs [Str (txt "rgb"); Opt (Lit "a"); Lit "("; ws; digits; ws; Lit ",";
          ws; digits; ws; Lit ","; ws; digits; ws;
          Opt (Seqs [Lit ","; ws; digitsOrDots]); ws; Lit ")"];
    (* /hsla?\(\s*\d+\s*,\s*[\d.]+\s*,\s*[\d.]+\s*(?:,\s*[\d.]+)?\s*\)/g *)
    Seqs [Str (txt "hsl"); Opt (Lit "a"); Lit "("; ws; digits; ws; Lit ",";
          ws; digitsOrDots; ws; Lit ","; ws; digitsOrDots; ws;
          Opt (Seqs [Lit ","; ws; digitsOrDots]); ws; Lit ")"];
    (* spacing *)
    Seqs [notWordBehind;
          oneOfWords ["0.25rem"; "0.375rem"; "0.5rem"; "0.75rem"; "1rem";
                      "1.25rem"; "1.5rem"; "2rem"; "3rem"; "4rem"];
          notWordAhead];
    (* font sizes *)
    Seqs [notWordBehind;
          oneOfWords ["0.75rem"; "0.875rem"; "1rem"; "1.125rem"; "1.25rem";
                      "1.5rem"; "1.875rem"; "2.25rem"; "3rem"];
          notWordAhead];
    (* border radius *)
    Seqs [notWordBehind;
          oneOfWords ["0.25rem"; "0.5rem"; "0.75rem"; "1rem"; "1.5rem"];
          notWordAhead];
    (* /box-shadow:\s*[^;]*rgba?\([^)]*\)[^;]*;/g *)
    Seqs [Str (txt "box-shadow:"); ws; Star (NoneOf (txt ";"));
          Str (txt "rgb"); Opt (Lit "a"); Lit "("; Star (NoneOf (txt ")"));
          Lit ")"; Star (NoneOf (txt ";")); Lit ";"];
    (* /z-index:\s*\d+/g *)
    Seqs [Str (txt "z-index:"); ws; digits] ].

Definition ALLOWED_EXCEPTIONS : list text :=
  map txt
    ["0px"; "0rem"; "0"; "1px"; "2px"; "3px"; "4px"; "8px";
     "100%"; "50%"; "auto"; "none"; "transparent"; "inherit";
     "currentColor"; "initial"; "unset"].

(** [content.substring(0, content.indexOf(s)).split('\n').length]; a
    negative end index is clamped to 0 by [substring]. *)
Definition lineOfFirst (content s : text) : nat :=
  lineAt content (match indexOf s content with
                  | Some i => i
                  | None => 0
                  end).

Record HardcodedIssue : Type := mkHardcoded {
  h_type : text;
  h_file : text;
  h_line : nat;
  h_value : text;
  h_pattern : nat
}.

(** [ALLOWED_EXCEPTIONS.some(exception => match.includes(exception))] *)
Definition isException (m : text) : bool :=
  existsb (fun exception => includes exception m) ALLOWED_EXCEPTIONS.

(** The issues one pattern contributes: the body of the outer [forEach]. *)
Definition hardcodedOfPattern (content filePath : text)
  (pattern : regex) (index : nat) : list HardcodedIssue :=
  flat_map
    (fun m =>
       if negb (isException (matched m)) then
         [ {| h_type := txt "hardcoded_value";
              h_file := filePath;
              h_line := lineOfFirst content (matched m);
              h_value := trim (matched m);
              h_pattern := index |} ]
       else [])
    (matchAll pattern content).

Fixpoint forEachIndexed {A B : Type} (f : A -> nat -> list B)
  (l : list A) (i : nat) : list B :=
  match l with
  | [] => []
  | a :: l' => f a i ++ forEachIndexed f l' (S i)
  end.

Definition findHardcodedValues (content filePath : text)
  : list HardcodedIssue :=
  forEachIndexed (hardcodedOfPattern content filePath) HARDCODED_PATTERNS 0.

Record UndefinedIssue : Type := mkUndefined {
  u_type : text;
  u_file : text;
  u_line : nat;
  u_token : text
}.

(** [[...new Set(l)]]: first occurrences, in order. *)
Fixpoint dedupe (seen l : list text) : list text :=
  match l with
  | [] => []
  | x :: l' =>
      if existsb (text_eqb x) seen then dedupe seen l'
      else x :: dedupe (x :: seen) l'
  end.

(** [/var\(--[^)]+\)/g] *)
Definition varRef : regex :=
  Seqs [Str (txt "var(--"); Plus (NoneOf (txt ")")); Lit ")"].

(** [/--[^:]+:/g] *)
Definition tokenDecl : regex :=
  Seqs [Str (txt "--"); Plus (NoneOf (txt ":")); Lit ":"].

(** [/[:\s]/g] *)
Definition colonOrSpace : regex :=
  Char (fun c => Ascii.eqb c ":" || isSpace c).

(** [/var\(--|\)/g] *)
Definition varOpenOrClose : regex := Or (Str (txt "var(--")) (Lit ")").

Definition tokensCssPath : text := txt "src/design-system/tokens/tokens.css".

Definition findUnusedTokens (fs : FileSystem) (content filePath : text)
  : list UndefinedIssue :=
  match matchAll varRef content with
  | [] => []
  | tokenMatches =>
      let availableTokens :=
        match readFileSync fs tokensCssPath with
        | Return tokensContent =>
            map (fun m => replaceAll colonOrSpace [] (matched m))
              (matchAll tokenDecl tokensContent)
        | Throw _ => []
        end in
      let usedTokens :=
        dedupe [] (map (fun m => replaceAll varOpenOrClose [] (matched m))
                     tokenMatches) in
      flat_map
        (fun token =>
           if negb (existsb (text_eqb token) availableTokens) then
             [ {| u_type := txt "undefined_token";
                  u_file := filePath;
                  u_line := lineOfFirst content
                              (txt "var(--" ++ token ++ txt ")");
                  u_token := token |} ]
           else [])
        usedTokens
  end.

Record LegacyPattern : Type := mkLegacyPattern {
  pattern : regex;
  replacement : text;
  message : text
}.

Definition legacyPatterns : list LegacyPattern :=
  [ {| pattern := Seq (Str (txt "--color-brand")) (Ahead false (Lit "-"));
       replacement := txt "--color-brand-primary";
       message := txt "Use semantic brand color tokens" |};
    {| pattern := Seq (Str (txt "--color-accent")) (Ahead false (Lit "-"));
       replacement := txt "--color-brand-secondary";
       message := txt "Use semantic brand color tokens" |};
    {| pattern := Str (txt "--color-surface-alt");
       replacement := txt "--color-surface-secondary";
       message := txt "Use semantic surface color tokens" |};
    {| pattern := Seq (Str (txt "--fs-"))
                    (Ahead false (Or (Str (txt "hero")) (Str (txt "h2"))));
       replacement := txt "--font-size-";
       message := txt "Use semantic font size tokens" |};
    {| pattern := Seq (Str (txt "--lh-"))
                    (Ahead false (Or (Str (txt "tight")) (Str (txt "body"))));
       replacement := txt "--line-height-";
       message := txt "Use semantic line height tokens" |};
    {| pattern := Seq (Str (txt "--space-")) (OneOf (txt "1234567"));
       replacement := txt "--space-";
       message := txt "Use semantic spacing tokens" |};
    {| pattern := Seq (Str (txt "--radius-")) (OneOf (txt "123"));
       replacement := txt "--radius-";
       message := txt "Use semantic radius tokens" |};
    {| pattern := Seq (Str (txt "--shadow-")) (OneOf (txt "1234"));
       replacement := txt "--shadow-";
       message := txt "Use semantic shadow tokens" |} ].

Record LegacyIssue : Type := mkLegacy {
  l_type : text;
  l_file : text;
  l_line : nat;
  l_value : text;
  l_suggestion : text;
  l_message : text
}.

Definition findLegacyTokens (content filePath : text) : list LegacyIssue :=
  flat_map
    (fun lp =>
       map (fun m =>
              {| l_type := txt "legacy_token";
                 l_file := filePath;
                 l_line := lineOfFirst content (matched m);
                 l_value := matched m;
                 l_suggestion :=
                   replaceAll (pattern lp) (replacement lp) (matched m);
                 l_message := message lp |})
         (matchAll (pattern lp) content))
    legacyPatterns.

Record FileResult : Type := mkResult {
  file : text;
  hardcoded : list HardcodedIssue;
  unused : list UndefinedIssue;
  legacy : list LegacyIssue;
  total : nat
}.

Definition analyzeFile (fs : FileSystem) (filePath : text) : Js FileResult :=
  bind (readFileSync fs filePath)
    (fun content =>
       let hardcodedIssues := findHardcodedValues content filePath in
       let unusedTokenIssues := findUnusedTokens fs content filePath in
       let legacyTokenIssues := findLegacyTokens content filePath in
       Return {| file := filePath;
                 hardcoded := hardcodedIssues;
                 unused := unusedTokenIssues;
                 legacy := legacyTokenIssues;
                 total := length hardcodedIssues + length unusedTokenIssues
                          + length legacyTokenIssues |}).

(** What a run of [main] leaves behind: the per-file results handed to
    [generateReport], the files whose analysis threw (each written to
    [console.error]), and the exit status. *)
Record Run : Type := mkRun {
  results : list FileResult;
  errors : list (text * Exn);
  exitCode : nat
}.

Definition emptyResult (f : text) : FileResult :=
  {| file := f; hardcoded := []; unused := []; legacy := []; total := 0 |}.

(** The callback of [htmlFiles.map]: the result, and the error it logged. *)
Definition analyzeOrLog (fs : FileSystem) (f : text)
  : FileResult * list (text * Exn) :=
  match analyzeFile fs f with
  | Return r => (r, [])
  | Throw error => (emptyResult f, [(f, error)])
  end.

Definition totalIssues (rs : list FileResult) : nat :=
  fold_left (fun sum result => sum + total result) rs 0.

(** [main()], given what [glob.sync('*.html')] returned. *)
Definition main (fs : FileSystem) (htmlFiles : list text) : Js Run :=
  match htmlFiles with
  | [] => Return {| results := []; errors := []; exitCode := 0 |}
  | _ =>
      let outcomes := map (analyzeOrLog fs) htmlFiles in
      let rs := map fst outcomes in
      Return {| results := rs;
                errors := flat_map snd outcomes;
                exitCode := if (0 <? totalIssues rs)%nat then 1 else 0 |}
  end.

End VerifyDesignTokens.

(** ** Shared text helpers of the rewriting scripts *)

(** Source literals that contain double quotes are written with a backtick
    in place of each double quote. *)
Definition q (s : string) : text :=
  map (fun c => if Ascii.eqb c "`" then dq else c) (txt s).

Fixpoint joinWith (sep : text) (ls : list text) : text :=
  match ls with
  | [] => []
  | [l] => l
  | l :: ls' => l ++ sep ++ joinWith sep ls'
  end.

Definition joinLines (ls : list text) : text := joinWith [nl] ls.

(** The syntax characters listed in the class [[.*+?^${}()|[\]\\]]. *)
Definition isRegexSpecial (c : ascii) : bool :=
  existsb (Ascii.eqb c) (txt ".*+?^${}()|[]\").

(** [s.replace(/[.*+?^${}()|[\]\\]/g, '\\$&')] *)
Definition escapeRegExp (s : text) : text :=
  replaceAll (Char isRegexSpecial) (txt "\$&") s.

(** [new RegExp(p, 'g')] for a pattern [p] in which every syntax character
    is escaped: a backslash makes the next code unit literal, every other
    code unit stands for itself. *)
Fixpoint RegExpEscaped (p : text) : regex :=
  match p with
  | [] => Empty
  | c :: rest =>
      if Ascii.eqb c "\" then
        match rest with
        | d :: rest' => Seq (Lit d) (RegExpEscaped rest')
        | [] => Lit c
        end
      else Seq (Lit c) (RegExpEscaped rest)
  end.

(** [fs.writeFileSync(filePath, content)]: the host refuses the write with
    the exception [denied filePath] when there is one; otherwise later
    reads of [filePath] return [content]. *)
Definition writeFileSync (denied : text -> option Exn) (fs : FileSystem)
  (filePath content : text) : Js FileSystem :=
  match denied filePath with
  | Some e => Throw e
  | None =>
      Return {| readFileSync := fun p => if text_eqb p filePath
                                         then Return content
                                         else readFileSync fs p;
                existsSync := fun p => text_eqb p filePath || existsSync fs p |}
  end.

(** ** Literal-to-token rewriting ([scripts/apply-tokens.js]) *)

Module ApplyTokens.

Local Open Scope string_scope.

Definition Mapping : Type := list (text * text).

Definition entries (l : list (string * string)) : Mapping :=
  map (fun e => (q (fst e), q (snd e))) l.

Definition COLOR_MAPPINGS : Mapping := entries
  [ ("#16324F", "var(--color-brand-primary)");
    ("#FF7A00", "var(--color-brand-secondary)");
    ("#32C671", "var(--color-brand-accent)");
    ("#005F5F", "var(--color-brand-teal-primary)");
    ("#008080", "var(--color-brand-teal-secondary)");
    ("#4A9B9B", "var(--color-brand-teal-light)");
    ("#FFFFFF", "var(--color-surface-primary)");
    ("#F6F8FB", "var(--color-surface-secondary)");
    ("#FAFAFA", "var(--color-surface-secondary)");
    ("#0F172A", "var(--color-text-primary)");
    ("#475569", "var(--color-text-muted)");
    ("#E2E8F0", "var(--color-border-primary)");
    ("#E5E5E5", "var(--color-border-primary)");
    ("#cbd5e1", "var(--color-text-muted)");
    ("#F59E0B", "var(--color-state-warning)");
    ("#dbeafe", "var(--color-surface-tertiary)");
    ("#F8FAFF", "var(--color-surface-tertiary)") ].

Definition SPACING_MAPPINGS : Mapping := entries
  [ ("0.375rem", "var(--space-sm)");
    ("0.75rem", "var(--space-lg)");
    ("1rem", "var(--space-xl)");
    ("1.5rem", "var(--space-2xl)");
    ("2rem", "var(--space-3xl)");
    ("3rem", "var(--space-4xl)");
    ("4rem", "var(--space-5xl)") ].

Definition FONT_SIZE_MAPPINGS : Mapping := entries
  [ ("clamp(2rem, 2.5vw + 1.2rem, 3rem)", "var(--font-size-hero)");
    ("clamp(1.375rem, 1.5vw + 1rem, 2rem)", "var(--font-size-h2)");
    ("1rem", "var(--font-size-base)");
    ("0.9rem", "var(--font-size-sm)");
    ("1.1rem", "var(--font-size-lg)");
    ("1.2rem", "var(--font-size-xl)") ].

Definition SHADOW_MAPPINGS : Mapping := entries
  [ ("0 1px 2px rgba(0,0,0,.06)", "var(--shadow-sm)");
    ("0 6px 16px rgba(0,0,0,.10)", "var(--shadow-base)");
    ("0 4px 8px rgba(0,0,0,.08)", "var(--shadow-base)");
    ("0 8px 16px rgba(0,0,0,.12)", "var(--shadow-md)");
    ("0 16px 32px rgba(0,0,0,.16)", "var(--shadow-lg)") ].

Definition RADIUS_MAPPINGS : Mapping := entries
  [ ("0.5rem", "var(--radius-base)");
    ("0.75rem", "var(--radius-md)");
    ("1rem", "var(--radius-lg)");
    ("0.4rem", "var(--radius-base)");
    ("0.6rem", "var(--radius-base)");
    ("999px", "var(--radius-full)");
    ("9999px", "var(--radius-full)") ].

Definition LINE_HEIGHT_MAPPINGS : Mapping := entries
  [ ("1.15", "var(--line-height-tight)");
    ("1.6", "var(--line-height-relaxed)");
    ("1.5", "var(--line-height-normal)") ].

Definition FONT_WEIGHT_MAPPINGS : Mapping := entries
  [ ("400", "var(--font-weight-normal)");
    ("500", "var(--font-weight-medium)");
    ("600", "var(--font-weight-semibold)");
    ("700", "var(--font-weight-bold)") ].

Definition LETTER_SPACING_MAPPINGS : Mapping := entries
  [ ("0.06em", "var(--letter-spacing-widest)") ].

Definition MAX_WIDTH_MAPPINGS : Mapping := entries
  [ ("1200px", "var(--max-width-wrap)") ].

Definition Z_INDEX_MAPPINGS : Mapping := entries
  [ ("50", "var(--z-sticky)");
    ("1000", "var(--z-skipLink)") ].

Definition TRANSITION_MAPPINGS : Mapping := entries
  [ ("0.15s", "var(--transition-duration-fast)");
    ("0.25s", "var(--transition-duration-base)");
    ("0.4s", "var(--transition-duration-slow)");
    ("0.3s", "var(--transition-duration-base)") ].

Definition FONT_FAMILY_MAPPINGS : Mapping := entries
  [ ("ui-sans-serif, system-ui, -apple-system, Segoe UI, Roboto, Inter, `Helvetica Neue`, Arial, `Noto Sans`, `Liberation Sans`, sans-serif",
     "var(--font-family-sans)") ].

Definition allMappings : list Mapping :=
  [ COLOR_MAPPINGS; SPACING_MAPPINGS; FONT_SIZE_MAPPINGS; SHADOW_MAPPINGS;
    RADIUS_MAPPINGS; LINE_HEIGHT_MAPPINGS; FONT_WEIGHT_MAPPINGS;
    LETTER_SPACING_MAPPINGS; MAX_WIDTH_MAPPINGS; Z_INDEX_MAPPINGS;
    TRANSITION_MAPPINGS; FONT_FAMILY_MAPPINGS ].

(** The body of the inner [forEach]: one global replacement. *)
Definition replaceEntry (updatedContent : text) (entry : text * text) : text :=
  let '(oldValue, newValue) := entry in
  let escapedOldValue := escapeRegExp oldValue in
  let regex := RegExpEscaped escapedOldValue in
  replaceAll regex newValue updatedContent.

Definition applyMappings (ms : list Mapping) (content : text) : text :=
  fold_left (fun updatedContent mapping =>
               fold_left replaceEntry mapping updatedContent)
    ms content.

Definition applyTokenReplacements (content : text) : text :=
  applyMappings allMappings content.

(** [/<style>/i] *)
Definition styleTagRegex : regex := StrI (txt "<style>").

Definition tokenImport : text :=
  q "  <link rel=`stylesheet` href=`src/design-system/tokens/tokens.css`>"
    ++ [nl].

(** [addTokenImport(content)] *)
Definition addTokenImport (content : text) : text :=
  if includes (txt "tokens.css") content then content
  else
    match execFrom styleTagRegex [] content with
    | Some _ =>
        replaceFirst styleTagRegex (tokenImport ++ txt "  <style>") content
    | None => content
    end.

(** What [processFile] makes of the text of a file. *)
Definition migrate (content : text) : text :=
  let updatedContent := applyTokenReplacements content in
  addTokenImport updatedContent.

(** [processFile(filePath)]; the result is the file system after it. *)
Definition processFile (denied : text -> option Exn) (fs : FileSystem)
  (filePath : text) : Js FileSystem :=
  bind (readFileSync fs filePath)
    (fun content => writeFileSync denied fs filePath (migrate content)).

(** The body of [htmlFiles.forEach]: a file whose processing throws is
    reported and left as it was. *)
Definition processOrLog (denied : text -> option Exn)
  (state : FileSystem * list (text * Exn)) (file : text)
  : FileSystem * list (text * Exn) :=
  match processFile denied (fst state) file with
  | Return fs' => (fs', snd state)
  | Throw error => (fst state, (snd state ++ [(file, error)])%list)
  end.

(** [main()], given what [glob.sync('*.html')] returned: the file system
    it leaves and the errors it printed. *)
Definition main (denied : text -> option Exn) (fs : FileSystem)
  (htmlFiles : list text) : FileSystem * list (text * Exn) :=
  match htmlFiles with
  | [] => (fs, [])
  | _ => fold_left (processOrLog denied) htmlFiles (fs, [])
  end.

End ApplyTokens.

(** ** The interlinking map ([interlinking-map.json]) *)

(** One entry of a [to] list; a key the entry lacks is [None]. *)
Record LinkSpec : Type := mkLinkSpec {
  path : option text;
  anchor : option text;
  relate : option text
}.

Record LinkPattern : Type := mkLinkPattern {
  from : text;
  to : list LinkSpec
}.

Record InterlinkingMap : Type := mkMap {
  patterns : list LinkPattern
}.

(** Truthiness of an optional string: present and not empty. *)
Definition truthy (v : option text) : bool :=
  match v with
  | Some (_ :: _) => true
  | _ => false
  end.

(** ** Link audit ([scripts/check-links.js]) *)

Module CheckLinks.

Local Open Scope string_scope.

Definition quoteChar : regex := OneOf [dq; "'"%char].
Definition notQuote : regex := NoneOf [dq; "'"%char].

(** [linkRegex], flags [gi]: an opening [<a] with at least one further
    code unit before [href=], the quoted target (group 1), the rest of
    the tag up to [>], the anchor text free of [<] (group 2), and the
    closing tag. *)
Definition linkRegex : regex :=
  Seqs [StrI (txt "<a"); Plus (NoneOf (txt ">")); StrI (txt "href=");
        quoteChar; Group 1 (Plus notQuote); quoteChar;
        Star (NoneOf (txt ">")); Lit ">"; Group 2 (Star (NoneOf (txt "<")));
        StrI (txt "</a>")].

Record Link : Type := mkLink {
  source : text;
  href : text;
  text_ : text;
  line : nat
}.

(** The body of the [while] loop for one match: the link it pushes, if
    it does not [continue]. *)
Definition linkOfMatch (content sourceFile : text) (m : Match)
  : option Link :=
  let href := group 1 m in
  let text := trim (group 2 m) in
  if startsWith (txt "http") href || startsWith (txt "mailto:") href
     || startsWith (txt "tel:") href then None
  else if startsWith (txt "#") href then None
  else Some {| source := sourceFile;
               href := href;
               text_ := text;
               line := lineAt content (index m) |}.

(** The matches the loop keeps, each with the index [match.index]. *)
Definition extractLinksIndexed (content sourceFile : text)
  : list (nat * Link) :=
  flat_map (fun m => match linkOfMatch content sourceFile m with
                     | Some l => [(index m, l)]
                     | None => []
                     end)
    (matchAll linkRegex content).

Definition extractLinks (content sourceFile : text) : list Link :=
  map snd (extractLinksIndexed content sourceFile).

Record MapIssue : Type := mkMapIssue {
  i_type : text;
  i_source : text;
  i_expected : text;
  i_message : text
}.

(** [expectedLinks.to.map(link => link.path).filter(Boolean)] *)
Definition expectedPathsOf (p : LinkPattern) : list text :=
  flat_map (fun link => if truthy (path link)
                        then match path link with
                             | Some p => [p]
                             | None => []
                             end
                        else [])
    (to p).

(** [validateAgainstMap(links, sourceFile)]; [interlinkingMap] is [None]
    when the map could not be loaded. *)
Definition validateAgainstMap (interlinkingMap : option InterlinkingMap)
  (links : list Link) (sourceFile : text) : list MapIssue :=
  match interlinkingMap with
  | None => []
  | Some map_ =>
      match find (fun p => text_eqb (from p) sourceFile) (patterns map_) with
      | None => []
      | Some expectedLinks =>
          let expectedPaths := expectedPathsOf expectedLinks in
          let actualPaths := map href links in
          flat_map
            (fun expectedPath =>
               if negb (existsb (text_eqb expectedPath) actualPaths) then
                 [ {| i_type := txt "missing_expected_link";
                      i_source := sourceFile;
                      i_expected := expectedPath;
                      i_message := txt "Missing expected link to "
                                     ++ expectedPath |} ]
               else [])
            expectedPaths
      end
  end.

Record BrokenLink : Type := mkBroken {
  b_source : text;
  b_href : text;
  b_text : text;
  b_line : nat;
  b_message : text
}.

Record FileResult : Type := mkResult {
  file : text;
  links : list Link;
  broken : list BrokenLink;
  validation : list MapIssue;
  total : nat
}.

Definition analyzeFile (fs : FileSystem)
  (interlinkingMap : option InterlinkingMap) (filePath : text)
  : Js FileResult :=
  bind (readFileSync fs filePath)
    (fun content =>
       let links := extractLinks content filePath in
       let brokenLinks :=
         flat_map (fun link =>
                     if negb (existsSync fs (href link)) then
                       [ {| b_source := filePath;
                            b_href := href link;
                            b_text := text_ link;
                            b_line := line link;
                            b_message := txt "Broken link to " ++ href link |} ]
                     else [])
           links in
       let validationIssues :=
         validateAgainstMap interlinkingMap links filePath in
       Return {| file := filePath;
                 links := links;
                 broken := brokenLinks;
                 validation := validationIssues;
                 total := length brokenLinks + length validationIssues |}).

Record Run : Type := mkRun {
  results : list FileResult;
  errors : list (text * Exn);
  exitCode : nat
}.

Definition emptyResult (f : text) : FileResult :=
  {| file := f; links := []; broken := []; validation := []; total := 0 |}.

Definition analyzeOrLog (fs : FileSystem)
  (interlinkingMap : option InterlinkingMap) (f : text)
  : FileResult * list (text * Exn) :=
  match analyzeFile fs interlinkingMap f with
  | Return r => (r, [])
  | Throw error => (emptyResult f, [(f, error)])
  end.

Definition totalIssues (rs : list FileResult) : nat :=
  fold_left (fun sum result => sum + total result) rs 0.

(** [main()], given what [glob.sync('*.html')] returned. *)
Definition main (fs : FileSystem) (interlinkingMap : option InterlinkingMap)
  (htmlFiles : list text) : Js Run :=
  match htmlFiles with
  | [] => Return {| results := []; errors := []; exitCode := 0 |}
  | _ =>
      let outcomes := map (analyzeOrLog fs interlinkingMap) htmlFiles in
      let rs := map fst outcomes in
      Return {| results := rs;
                errors := flat_map snd outcomes;
                exitCode := if (0 <? totalIssues rs)%nat then 1 else 0 |}
  end.

End CheckLinks.

(** ** Link rewriting ([scripts/apply-interlinking-map.js]) *)

Module ApplyInterlinkingMap.

Local Open Scope string_scope.

Record Crumb : Type := mkCrumb {
  name : text;
  crumb_href : option text
}.

Definition trail (section sectionHref leaf : string) : list Crumb :=
  [ {| name := txt "Home";
       crumb_href := Some (txt "moving-inbound-marketing-home.html") |};
    {| name := txt section; crumb_href := Some (txt sectionHref) |};
    {| name := txt leaf; crumb_href := None |} ].

(** [breadcrumbMappings[sourceFile]] *)
Definition breadcrumbMappings (sourceFile : text) : option (list Crumb) :=
  if text_eqb sourceFile (txt "service-residential.html") then
    Some (trail "Services" "service-residential.html" "Residential Moving")
  else if text_eqb sourceFile (txt "service-office.html") then
    Some (trail "Services" "service-office.html" "Office Moving")
  else if text_eqb sourceFile (txt "service-delivery.html") then
    Some (trail "Services" "service-delivery.html" "Delivery Services")
  else if text_eqb sourceFile (txt "resource-hub.html") then
    Some (trail "Resources" "resource-hub.html" "Resource Hub")
  else if text_eqb sourceFile (txt "service-areas.html") then
    Some (trail "Service Areas" "service-areas.html" "All Areas")
  else None.

(** String conversion of an optional string inside a template literal. *)
Definition interpolate (v : option text) (absent : string) : text :=
  match v with
  | Some t => t
  | None => txt absent
  end.

(** The callback of [breadcrumbs.map]. *)
Definition crumbHtml (len : nat) (crumb : Crumb) (index : nat) : text :=
  if (index =? len - 1)%nat then
    q "<li style=`color: var(--color-text-primary); font-weight: var(--font-weight-medium);`>"
      ++ name crumb ++ q "</li>"
  else
    q "<li><a href=`" ++ interpolate (crumb_href crumb) "null"
      ++ q "` style=`color: var(--color-text-muted); text-decoration: none;`>"
      ++ name crumb
      ++ q "</a> <span style=`margin: 0 var(--space-1);`>/</span></li>".

Fixpoint mapIndexed {A B : Type} (f : A -> nat -> B) (l : list A) (i : nat)
  : list B :=
  match l with
  | [] => []
  | a :: l' => f a i :: mapIndexed f l' (S i)
  end.

Definition breadcrumbHtml (breadcrumbs : list Crumb) : text :=
  joinLines
    [ q "";
      q "    <nav aria-label=`Breadcrumb` style=`margin-bottom: var(--space-3);`>";
      q "      <ol style=`display: flex; list-style: none; padding: 0; margin: 0; gap: var(--space-1); font-size: var(--font-size-sm); color: var(--color-text-muted);`>";
      q "        " ]
    ++ joinWith [] (mapIndexed (crumbHtml (length breadcrumbs)) breadcrumbs 0)
    ++ joinLines
         [ q "";
           q "      </ol>";
           q "    </nav>";
           q "  " ].

(** [heroEndRegex], flag [i]: a closing [section] tag and white space,
    followed by an opening [section] or [main] tag. *)
Definition heroEndRegex : regex :=
  Seqs [StrI (txt "</section>"); Star (Char isSpace);
        Ahead true (Or (StrI (txt "<section")) (StrI (txt "<main")))].

(** [mainStartRegex], flag [i]: an opening [main] tag. *)
Definition mainStartRegex : regex :=
  Seqs [StrI (txt "<main"); Star (NoneOf (txt ">")); Lit ">"].

Definition updateBreadcrumbs (content sourceFile : text) : text :=
  let updatedContent := content in
  match breadcrumbMappings sourceFile with
  | None => updatedContent
  | Some breadcrumbs =>
      let html := breadcrumbHtml breadcrumbs in
      if test heroEndRegex updatedContent then
        replaceFirst heroEndRegex
          (txt "</section>" ++ [nl] ++ txt "  " ++ html) updatedContent
      else if test mainStartRegex updatedContent then
        replaceFirst mainStartRegex (txt "$& " ++ html) updatedContent
      else updatedContent
  end.

Section WithMap.

(** The parsed [interlinking-map.json], and the host's constructor
    [new RegExp(pattern, 'gi')]. *)
Variable interlinkingMap : InterlinkingMap.
Variable RegExp_gi : text -> Js regex.

Definition getLinksForFile (sourceFile : text) : list LinkSpec :=
  match find (fun p => text_eqb (from p) sourceFile)
          (patterns interlinkingMap) with
  | Some pattern => to pattern
  | None => []
  end.

(** [/href=[quote][^quote]*[quote]/], without flags. *)
Definition hrefAttr : regex :=
  Seqs [Str (txt "href="); OneOf [dq; "'"%char];
        Star (NoneOf [dq; "'"%char]); OneOf [dq; "'"%char]].

(** The replacer passed to [replace] for each pattern. *)
Definition retarget (targetPath : text) (m : Match) : text :=
  if includes (txt "href=") (matched m) then
    replaceFirst hrefAttr (q "href=`" ++ targetPath ++ q "`") (matched m)
  else matched m.

Definition applyPattern (targetPath : text) (updatedContent : text)
  (pattern : regex) : text :=
  replaceScan pattern (retarget targetPath) 0 [] updatedContent.

(** The body of [links.forEach]. *)
Definition updateLink (updatedContent : text) (link : LinkSpec) : Js text :=
  if truthy (relate link) then Return updatedContent
  else
    let targetPath := interpolate (path link) "undefined" in
    bind (RegExp_gi (q "href=[`']" ++ targetPath ++ q "[`']"))
      (fun p1 =>
    bind (match anchor link with
          | Some a => Return (escapeRegExp a)
          | None => Throw TypeError
          end)
      (fun a =>
    bind (RegExp_gi (txt "<a[^>]*>\s*" ++ a ++ txt "\s*</a>"))
      (fun p2 =>
    bind (RegExp_gi (q "<a[^>]*title=[`']" ++ a ++ q "[`'][^>]*>"))
      (fun p3 =>
         Return (fold_left (applyPattern targetPath) [p1; p2; p3]
                   updatedContent))))).

Fixpoint forEachJs {A S : Type} (f : S -> A -> Js S) (l : list A) (s : S)
  : Js S :=
  match l with
  | [] => Return s
  | a :: l' => bind (f s a) (forEachJs f l')
  end.

Definition updateLinksInContent (content sourceFile : text) : Js text :=
  match getLinksForFile sourceFile with
  | [] => Return content
  | links => forEachJs updateLink links content
  end.

Fixpoint splitOn (sep : ascii) (cur : text) (s : text) : list text :=
  match s with
  | [] => [rev cur]
  | c :: s' =>
      if Ascii.eqb c sep then rev cur :: splitOn sep [] s'
      else splitOn sep (c :: cur) s'
  end.

(** [word.charAt(0).toUpperCase() + word.slice(1)] *)
Definition capitalize (word : text) : text :=
  match word with
  | [] => []
  | c :: rest => toUpper c :: rest
  end.

(** [/<footer[^>]*>/i] *)
Definition footerOpen : regex :=
  Seqs [StrI (txt "<footer"); Star (NoneOf (txt ">")); Lit ">"].

(** The pill list of an area card, as one capture group; flag [g]. *)
Definition pillList : regex :=
  Group 1 (Seqs [Str (q "<div class=`pill-list`>");
                 Star (NoneOf (txt "<")); Str (txt "</div>")]).

Definition serviceLinks (capitalizedArea : text) : text :=
  joinLines
    [ q "";
      q "      <div style=`margin-top: var(--space-4); padding: var(--space-3); background: var(--color-surface-secondary); border-radius: var(--radius-base);`>";
      q "        <h3 style=`margin-top: 0;`>Related Services in " ]
    ++ capitalizedArea
    ++ joinLines
         [ q "</h3>";
           q "        <div style=`display: flex; gap: var(--space-2); flex-wrap: wrap;`>";
           q "          <a href=`service-residential.html` class=`btn btn--ghost`>Residential Moving</a>";
           q "          <a href=`service-office.html` class=`btn btn--ghost`>Office Moving</a>";
           q "          <a href=`service-delivery.html` class=`btn btn--ghost`>Local Delivery</a>";
           q "          <a href=`quote.html` class=`btn btn--primary`>Get Quote</a>";
           q "        </div>";
           q "      </div>";
           q "    " ].

Definition serviceLinksHtml : text :=
  joinLines
    [ q "";
      q "      <div style=`margin-top: var(--space-2); display: flex; gap: var(--space-1); flex-wrap: wrap;`>";
      q "        <a href=`service-residential.html` style=`font-size: 0.85rem; padding: 0.25rem 0.5rem; background: var(--color-surface-secondary); border-radius: var(--radius-full); text-decoration: none; color: var(--color-text-secondary);`>Residential</a>";
      q "        <a href=`service-office.html` style=`font-size: 0.85rem; padding: 0.25rem 0.5rem; background: var(--color-surface-secondary); border-radius: var(--radius-full); text-decoration: none; color: var(--color-text-secondary);`>Office</a>";
      q "      </div>";
      q "    " ].

Definition addStrategicLinks (content sourceFile : text) : text :=
  match getLinksForFile sourceFile with
  | [] => content
  | _ =>
      let updatedContent := content in
      let updatedContent :=
        if includes (txt "service-area-") sourceFile
           && negb (includes (txt "service-areas.html") sourceFile)
        then
          let areaName :=
            replaceFirst (Str (txt ".html")) []
              (replaceFirst (Str (txt "service-area-")) [] sourceFile) in
          let capitalizedArea :=
            joinWith (txt " ") (map capitalize (splitOn "-" [] areaName)) in
          replaceFirst footerOpen
            (serviceLinks capitalizedArea ++ [nl]
               ++ q "  <footer role=`contentinfo`>")
            updatedContent
        else updatedContent in
      if text_eqb sourceFile (txt "service-areas.html") then
        replaceAll pillList (txt "$1" ++ serviceLinksHtml) updatedContent
      else updatedContent
  end.

(** What [processFile] shows of its work: the lines it writes to the
    console, and either the text it wrote back to [filePath] or the
    exception it raised. *)
Inductive ConsoleLine : Type :=
| LogProcessing (filePath : text)
| LogUpdated (filePath : text).

Record Outcome : Type := mkOutcome {
  console : list ConsoleLine;
  written : Js text
}.

Definition processFile (fs : FileSystem) (filePath : text) : Outcome :=
  let w :=
    bind (readFileSync fs filePath)
      (fun content =>
         bind (updateLinksInContent content filePath)
           (fun updatedContent =>
              let updatedContent := addStrategicLinks updatedContent filePath in
              let updatedContent := updateBreadcrumbs updatedContent filePath in
              Return updatedContent)) in
  {| console := LogProcessing filePath
                  :: match w with
                     | Return _ => [LogUpdated filePath]
                     | Throw _ => []
                     end;
     written := w |}.

(** The set [allTargets] of [validateTargets]: the paths of the entries
    that have one and carry no [relate] tag, each once. *)
Definition allTargets : list text :=
  VerifyDesignTokens.dedupe []
    (flat_map
       (fun pattern =>
          flat_map (fun link =>
                      if truthy (path link) && negb (truthy (relate link))
                      then match path link with
                           | Some p => [p]
                           | None => []
                           end
                      else [])
            (to pattern))
       (patterns interlinkingMap)).

Definition missingFiles (fs : FileSystem) : list text :=
  List.filter (fun target => negb (existsSync fs target)) allTargets.

(** [validateTargets()] *)
Definition validateTargets (fs : FileSystem) : bool :=
  (length (missingFiles fs) =? 0)%nat.

(** [processFile] with its write: the file system after it. *)
Definition processAndWrite (denied : text -> option Exn) (fs : FileSystem)
  (filePath : text) : Js FileSystem :=
  bind (written (processFile fs filePath))
    (fun updatedContent => writeFileSync denied fs filePath updatedContent).

(** The body of [htmlFiles.forEach]: the file system and [processedCount]. *)
Definition processAndCount (denied : text -> option Exn)
  (state : FileSystem * nat) (file : text) : FileSystem * nat :=
  match processAndWrite denied (fst state) file with
  | Return fs' => (fs', S (snd state))
  | Throw _ => state
  end.

(** [main()], given what [glob.sync('*.html')] returned. *)
Definition main (denied : text -> option Exn) (fs : FileSystem)
  (htmlFiles : list text) : FileSystem * nat :=
  if negb (validateTargets fs) then (fs, 0)
  else
    match htmlFiles with
    | [] => (fs, 0)
    | _ => fold_left (processAndCount denied) htmlFiles (fs, 0)
    end.

End WithMap.

End ApplyInterlinkingMap.

(** ** Literal audit ([scripts/audit-tokens.ts]) *)

Module AuditTokens.

Local Open Scope string_scope.

(** [\b]: exactly one of the code units before and after is a word
    character. *)
Definition wordBoundary : regex :=
  Or (Seq (Behind1 true isWord) (Ahead false (Char isWord)))
     (Seq (Behind1 false isWord) (Ahead true (Char isWord))).

Definition cr : ascii := ascii_of_nat 13.

(** [patterns], in the order of the source. *)
Definition patterns : list regex :=
  [ (* hex colors: a hash, three to eight hex digits, a word boundary *)
    Seqs [Lit "#"; Range 3 8 (Char isHex); wordBoundary];
    (* rgb/hsl: a word boundary, rgb or hsl, an optional a, and
       parentheses around anything but a closing parenthesis *)
    Seqs [wordBoundary; Or (Str (txt "rgb")) (Str (txt "hsl")); Opt (Lit "a");
          Lit "("; Star (NoneOf (txt ")")); Lit ")"];
    (* lengths: digits, an optional fraction, a unit, between word
       boundaries *)
    Seqs [wordBoundary; Plus (Char isDigit);
          Opt (Seq (Lit ".") (Plus (Char isDigit)));
          Alts [Str (txt "px"); Str (txt "rem"); Str (txt "em");
                Str (txt "vh"); Str (txt "vw")];
          wordBoundary];
    (* shadows: box-shadow or text-shadow, a colon, and everything up to
       the next semicolon *)
    Seqs [wordBoundary; Or (Str (txt "box-shadow")) (Str (txt "text-shadow"));
          Star (Char isSpace); Lit ":"; Star (Char isSpace);
          Star (NoneOf (txt ";")); Lit ";"] ].

(** The separator of [content.split]: an optional carriage return and a
    line feed. *)
Definition lineBreak : regex := Seq (Opt (Lit cr)) (Lit nl).

(** [content.split(re)] for a [re] that matches no empty text: the
    stretches between consecutive matches. *)
Fixpoint splitAt (ms : list Match) (pos : nat) (content : text) : list text :=
  match ms with
  | [] => [skipn pos content]
  | m :: ms' =>
      firstn (index m - pos) (skipn pos content)
        :: splitAt ms' (index m + length (matched m)) content
  end.

Definition split (r : regex) (content : text) : list text :=
  splitAt (matchAll r content) 0 content.

Record Finding : Type := mkFinding {
  file : text;
  line : nat;
  match_ : text
}.

(** The callback of [lines.forEach]: what line [i] adds to [results]. *)
Definition auditLine (file : text) (line : text) (i : nat) : list Finding :=
  flat_map (fun pat =>
              map (fun m => {| file := file; line := i + 1; match_ := matched m |})
                (matchAll pat line))
    patterns.

(** The body of the loop over the files, for a file that was read. *)
Definition auditContent (file content : text) : list Finding :=
  let lines := split lineBreak content in
  VerifyDesignTokens.forEachIndexed (auditLine file) lines 0.

(** The loop over the files: [results] at its end, or the exception of
    the first read that threw. *)
Fixpoint audit (fs : FileSystem) (files : list text) (results : list Finding)
  : Js (list Finding) :=
  match files with
  | [] => Return results
  | file :: files' =>
      bind (readFileSync fs file)
        (fun content => audit fs files' (results ++ auditContent file content))
  end.

(** [process.exitCode] at the end of the script. *)
Definition exitCode (results : list Finding) : nat :=
  match results with
  | [] => 0
  | _ :: _ => 1
  end.

End AuditTokens.

(** ** Vocabulary of the properties *)

(** [s'] is [s] after consuming [w]. *)
Definition extends (s s' : MState) : Prop :=
  exists w : text, before s' = rev w ++ before s /\ after s = w ++ after s'.

(** [text.replace(new RegExp(escaped k, 'g'), v)], resumed after [bef]. *)
Definition replaced (k v bef aft : text) : text :=
  replaceScan (Str k) (fun m => getSubstitution m v) 0 bef aft.

(** The non-empty suffixes of a text. *)
Fixpoint tails (s : text) : list text :=
  match s with
  | [] => []
  | c :: s' => (c :: s') :: tails s'
  end.

(** No non-empty suffix of [a] is a prefix of [b] or has [b] as a prefix:
    laid over each other, an occurrence of [a] cannot run into [b]. *)
Definition apart (a b : text) : bool :=
  forallb (fun x => negb (startsWith x b) && negb (startsWith b x)) (tails a).

Definition overlapFree (k v : text) : bool := apart k v && apart v k.

(** The conditions under which a list of replacement entries leaves
    nothing for a second pass: old values are not empty, new values hold
    no replacement pattern, and no old value can overlap a new value. *)
Definition settled (es : list (text * text)) : bool :=
  forallb (fun e => negb (text_eqb (fst e) [])
                    && negb (existsb (Ascii.eqb "$") (snd e))) es
  && forallb (fun e => forallb (fun e' => overlapFree (fst e) (snd e')) es) es.

(** What one run of a [main] owes its inputs, stated once for both audit
    scripts: [analyze] is the script's [analyzeFile], [empty] the result
    its [catch] branch returns. *)
Definition isolates {R : Type} (fs : FileSystem) (htmlFiles : list text)
  (analyze : text -> Js R) (empty : text -> R) (total : R -> nat)
  (results : list R) (errors : list (text * Exn)) (exitCode : nat) : Prop :=
  Forall2 (fun f r =>
             match readFileSync fs f with
             | Throw _ => r = empty f
             | Return _ => analyze f = Return r
             end) htmlFiles results
  /\ (forall f e, In f htmlFiles -> readFileSync fs f = Throw e ->
                  In (f, e) errors)
  /\ exitCode = (if 0 <? list_sum (map total results) then 1 else 0).

(** [s] starts with [p] when letter case is ignored. *)
Fixpoint startsWithI (p s : text) : bool :=
  match p, s with
  | [], _ => true
  | _ :: _, [] => false
  | a :: p', b :: s' => Ascii.eqb (toUpper b) (toUpper a) && startsWithI p' s'
  end.

(** The targets [extractLinks] skips: external schemes and same-page
    fragments. *)
Definition skippedTarget (href : text) : bool :=
  startsWith (txt "http") href || startsWith (txt "mailto:") href
  || startsWith (txt "tel:") href || startsWith (txt "#") href.

(** What a successful run of a pattern from [s] to [s'] went through: the
    states between its parts, the code units its classes accepted, and the
    captures its groups made. *)
Fixpoint Sem (r : regex) (s s' : MState) : Prop :=
  match r with
  | Empty => s' = s
  | Char p =>
      exists (c : ascii) (rest : text),
        after s = c :: rest /\ p c = true /\ s' = advance c rest s
  | Seq a b => exists m : MState, Sem a s m /\ Sem b m s'
  | Or a b => Sem a s s' \/ Sem b s s'
  | Star a => rtc (Sem a) s s'
  | Ahead _ _ => s' = s
  | Behind1 _ _ => s' = s
  | Group n a => exists m : MState, Sem a s m /\ s' = capture n s m
  end.

(** A pattern without capture groups. *)
Fixpoint captureFree (r : regex) : bool :=
  match r with
  | Seq a b | Or a b => captureFree a && captureFree b
  | Star a => captureFree a
  | Group _ _ => false
  | _ => true
  end.

(** ** Sample inputs *)

(** No [document], and a storage that throws: a server-side render. *)
Definition serverEnv : Theme.Env :=
  {| Theme.document := None;
     Theme.localStorage := {| Theme.items := ∅;
                        Theme.getItem_throws := true;
                        Theme.setItem_throws := true |} |}.

(** A browser whose saved theme is [theme-1]. *)
Definition browserEnv : Theme.Env :=
  {| Theme.document := Some {| Theme.dataset_theme := Some "theme-1"%string |};
     Theme.localStorage := {| Theme.items := {[ "theme"%string := "theme-1"%string ]};
                        Theme.getItem_throws := false;
                        Theme.setItem_throws := false |} |}.



(** A directory in which only [b.html] can be read. *)
Definition brokenFs : FileSystem :=
  {| readFileSync := fun p =>
       if text_eqb p (txt "b.html") then Return (txt "<p>ok</p>")
       else Throw (ReadError p);
     existsSync := fun p => text_eqb p (txt "b.html") |}.

(** A map with one entry, for the home page. *)
Definition sampleMap : InterlinkingMap :=
  {| patterns :=
       [ {| from := txt "home.html";
            to := [ {| path := Some (txt "quote.html");
                       anchor := Some (txt "Get Quote");
                       relate := None |} ] |} ] |}.

(** A map whose only entry for the home page is tagged. *)
Definition taggedMap : InterlinkingMap :=
  {| patterns :=
       [ {| from := txt "home.html";
            to := [ {| path := Some (txt "service-area-edmond.html");
                       anchor := Some (txt "Edmond movers");
                       relate := Some (txt "nearby") |} ] |} ] |}.

(** A stylesheet that declares the token [--space-sm]. *)
Definition tokensFs : FileSystem :=
  {| readFileSync := fun p =>
       if text_eqb p (txt "src/design-system/tokens/tokens.css")
       then Return (txt ":root { --space-sm: 0.375rem; }")
       else Throw (ReadError p);
     existsSync := fun p =>
       text_eqb p (txt "src/design-system/tokens/tokens.css") |}.

(** * Properties *)

(** ** Theme selection *)

Section ThemeFacts.

Import Theme.
Local Open Scope string_scope.

(** The test [getSavedTheme] writes out is membership in [ThemeName]. *)
Lemma isThemeName_spec (v : string) :
  (String.eqb v "current" || String.eqb v "theme-1"
   || String.eqb v "theme-2" || String.eqb v "theme-3"
   || String.eqb v "theme-4" || String.eqb v "theme-5") = true
  <-> In v ThemeName.
Proof.
  unfold ThemeName; simpl.
  rewrite !orb_true_iff, !String.eqb_eq.
  intuition congruence.
Qed.

(** C9: whatever the persisted store holds, and also when reading it
    throws, [getSavedTheme] completes normally; it returns the stored
    value exactly when that value is one of the six theme names, and
    null otherwise. *)
Theorem getSavedTheme_total (env : Env) :
  exists r : option string,
    getSavedTheme env = Return r
    /\ (forall v : string,
          r = Some v <->
          (getItem_throws (localStorage env) = false
           /\ items (localStorage env) !! "theme" = Some v
           /\ In v ThemeName)).
Proof.
  unfold getSavedTheme, getItem.
  destruct (getItem_throws (localStorage env)) eqn:Hthrows; simpl.
  - exists None. split; [reflexivity|].
    intros v; split; [discriminate | intros (H & _); discriminate].
  - destruct (items (localStorage env) !! "theme") as [w|] eqn:Hget; simpl.
    + destruct (String.eqb w "current" || String.eqb w "theme-1"
                || String.eqb w "theme-2" || String.eqb w "theme-3"
                || String.eqb w "theme-4" || String.eqb w "theme-5")
        eqn:Hmem.
      * exists (Some w). split; [reflexivity|].
        apply isThemeName_spec in Hmem.
        intros v; split.
        -- intros [= <-]. auto.
        -- intros (_ & [= <-] & _). reflexivity.
      * exists None. split; [reflexivity|].
        intros v; split; [discriminate|].
        intros (_ & [= <-] & Hin).
        apply isThemeName_spec in Hin. congruence.
    + exists None. split; [reflexivity|].
      intros v; split; [discriminate | intros (_ & H & _); discriminate].
Qed.

(** C10: where there is no [document], [setTheme] returns at once, for
    every name: the environment, document state and persistent store
    alike, is the one it was called in. *)
Theorem setTheme_without_document (name : string) (env : Env) :
  document env = None -> setTheme name env = Return env.
Proof.
  intros Hdoc. unfold setTheme. rewrite Hdoc. reflexivity.
Qed.


Lemma setTheme_without_document_witness :
  document serverEnv = None
  /\ setTheme "theme-2" serverEnv = Return serverEnv.
Proof.
  split; [reflexivity|].
  apply (setTheme_without_document "theme-2" serverEnv). reflexivity.
Defined.


(** C1, as stated, fails: in a browser whose saved theme is [theme-1],
    [setTheme] called with a name outside the set completes normally,
    applies the name to the document and persists it, and the saved
    theme read afterwards is null, not [theme-1]. *)
Lemma setTheme_invalid_counterexample :
  ~ In "bogus" ThemeName
  /\ getSavedTheme browserEnv = Return (Some "theme-1")
  /\ exists env' : Env,
       setTheme "bogus" browserEnv = Return env'
       /\ document env' = Some {| dataset_theme := Some "bogus" |}
       /\ items (localStorage env') !! "theme" = Some "bogus"
       /\ getSavedTheme env' = Return None.
Proof.
  split.
  - unfold ThemeName; simpl. intuition discriminate.
  - split; [reflexivity|].
    eexists. split; [reflexivity|].
    split; [reflexivity|]. split; reflexivity.
Qed.

(** C1, amended: [setTheme] validates nothing and never fails; names
    outside the set are kept out by the type [ThemeName] alone.  In a
    browser it sets the root's theme attribute to the name (empty for
    [current]) and tries to persist the name: when the write succeeds
    the store holds the name, when it throws the store is unchanged.
    After a successful write of a name outside the set, a readable store
    makes [getSavedTheme] return null. *)
Theorem setTheme_unvalidated (name : string) (env : Env) (doc : Document) :
  document env = Some doc ->
  exists env' : Env,
    setTheme name env = Return env'
    /\ document env'
       = Some {| dataset_theme :=
                   Some (if String.eqb name "current" then "" else name) |}
    /\ (setItem_throws (localStorage env) = true ->
        localStorage env' = localStorage env)
    /\ (setItem_throws (localStorage env) = false ->
        items (localStorage env') = <["theme" := name]> (items (localStorage env))
        /\ (~ In name ThemeName ->
            getItem_throws (localStorage env) = false ->
            getSavedTheme env' = Return None)).
Proof.
  intros Hdoc. unfold setTheme, setItem. rewrite Hdoc.
  destruct (setItem_throws (localStorage env)) eqn:Hset; simpl.
  - eexists. split; [reflexivity|]. split; [reflexivity|].
    split; [reflexivity | discriminate].
  - eexists. split; [reflexivity|]. split; [reflexivity|].
    split; [discriminate|]. intros _.
    split; [reflexivity|].
    intros Hnot Hget.
    unfold getSavedTheme, getItem; simpl. rewrite Hget; simpl.
    rewrite lookup_insert_eq; simpl.
    destruct (String.eqb name "current" || String.eqb name "theme-1"
              || String.eqb name "theme-2" || String.eqb name "theme-3"
              || String.eqb name "theme-4" || String.eqb name "theme-5")
      eqn:Hmem; [|reflexivity].
    apply isThemeName_spec in Hmem. contradiction.
Qed.

Lemma setTheme_unvalidated_witness :
  document browserEnv = Some {| dataset_theme := Some "theme-1" |}
  /\ exists env' : Env,
       setTheme "bogus" browserEnv = Return env'
       /\ document env' = Some {| dataset_theme := Some "bogus" |}.
Proof.
  split; [reflexivity|].
  destruct (setTheme_unvalidated "bogus" browserEnv
              {| dataset_theme := Some "theme-1" |} eq_refl)
    as (env' & Hrun & Hdoc & _).
  exists env'. split; [exact Hrun | exact Hdoc].
Defined.

End ThemeFacts.

(** ** The matcher *)

Section MatcherFacts.


Lemma extends_refl (s : MState) : extends s s.
Proof. exists []. split; reflexivity. Qed.

Lemma extends_trans (s1 s2 s3 : MState) :
  extends s1 s2 -> extends s2 s3 -> extends s1 s3.
Proof.
  intros (w1 & Hb1 & Ha1) (w2 & Hb2 & Ha2).
  exists (w1 ++ w2). split.
  - rewrite Hb2, Hb1, rev_app_distr, <- app_assoc. reflexivity.
  - rewrite Ha1, Ha2, <- app_assoc. reflexivity.
Qed.

Lemma extends_capture (n : nat) (s0 s s' : MState) :
  extends s s' -> extends s (capture n s0 s').
Proof. intros (w & Hb & Ha). exists w. split; assumption. Qed.

(** A successful run hands its result over from the continuation, called
    on a state further along the same text. *)
Lemma exec_at_inv (r : regex) :
  forall (k : MState -> option MState) (s e : MState),
    exec_at r k s = Some e ->
    exists s' : MState, k s' = Some e /\ extends s s'.
Proof.
  induction r as [ | p | a IHa b IHb | a IHa b IHb | a IHa
                 | positive a IHa | positive p | n a IHa ];
    intros k s e H; simpl in H.
  - exists s. split; [exact H | apply extends_refl].
  - destruct (after s) as [ | c rest] eqn:Haft; [discriminate|].
    destruct (p c); [|discriminate].
    exists (advance c rest s). split; [exact H|].
    exists [c]. split; [reflexivity | exact Haft].
  - apply IHa in H as (s1 & H1 & E1).
    apply IHb in H1 as (s2 & H2 & E2).
    exists s2. split; [exact H2 | eapply extends_trans; eassumption].
  - destruct (exec_at a k s) as [e1|] eqn:Ha.
    + injection H as <-. apply IHa in Ha. exact Ha.
    + apply IHb in H. exact H.
  - remember (length (after s)) as fuel eqn:Hfuel. clear Hfuel.
    revert s H. induction fuel as [ | fuel IHfuel]; intros s H.
    + exists s. split; [exact H | apply extends_refl].
    + match type of H with
      | match ?X with _ => _ end = _ => destruct X as [e1|] eqn:Hiter
      end.
      * injection H as <-.
        apply IHa in Hiter as (s1 & H1 & E1).
        destruct (length (after s1) <? length (after s)); [|discriminate].
        apply IHfuel in H1 as (s2 & H2 & E2).
        exists s2. split; [exact H2 | eapply extends_trans; eassumption].
      * exists s. split; [exact H | apply extends_refl].
  - exists s. split; [|apply extends_refl].
    destruct (exec_at a Some s), positive; try discriminate; exact H.
  - exists s. split; [|apply extends_refl].
    destruct (Bool.eqb _ positive); [exact H | discriminate].
  - apply IHa in H as (s1 & H1 & E1).
    exists (capture n s s1). split; [exact H1|].
    apply extends_capture. exact E1.
Qed.

(** The text a match reports is the text consumed from where it started. *)
Lemma exec_at_matched (r : regex) (bef aft : text) (e : MState) :
  exec_at r Some (mkState bef aft []) = Some e ->
  aft = matched (matchFrom bef e) ++ after e.
Proof.
  intros H. apply exec_at_inv in H as (s' & [= ->] & (w & Hb & Ha)).
  simpl in Hb, Ha. unfold matchFrom; simpl.
  rewrite Hb, length_app, length_rev.
  replace (length w + length bef - length bef) with (length w) by lia.
  rewrite <- (length_rev w), firstn_app, Nat.sub_diag, firstn_all; simpl.
  rewrite app_nil_r, rev_involutive. exact Ha.
Qed.

(** Every match of a scan starts at or after the index the scan resumes at. *)
Lemma scan_index_ge (r : regex) (aft : text) :
  forall (skip : nat) (bef : text) (m : Match),
    In m (scan r skip bef aft) -> length bef + skip <= index m.
Proof.
  induction aft as [ | c rest IH]; intros skip bef m Hin.
  - destruct skip as [ | n]; simpl in Hin; [|contradiction].
    destruct (exec_at r Some _); [|contradiction].
    destruct Hin as [<- | []]. simpl. lia.
  - destruct skip as [ | n]; simpl in Hin.
    + destruct (exec_at r Some _).
      * destruct Hin as [<- | Hin]; [simpl; lia|].
        apply IH in Hin. simpl in Hin. lia.
      * apply IH in Hin. simpl in Hin. lia.
    + apply IH in Hin. simpl in Hin. lia.
Qed.

(** The matches of a scan come in strictly increasing index order. *)
Lemma scan_sorted (r : regex) (aft : text) :
  forall (skip : nat) (bef : text),
    StronglySorted lt (map index (scan r skip bef aft)).
Proof.
  induction aft as [ | c rest IH]; intros skip bef.
  - destruct skip as [ | n]; simpl; [|constructor].
    destruct (exec_at r Some _); simpl; repeat constructor.
  - destruct skip as [ | n]; simpl; [|apply IH].
    destruct (exec_at r Some _); [|apply IH].
    simpl. constructor; [apply IH|].
    apply List.Forall_forall. intros i Hi.
    apply List.in_map_iff in Hi as (m' & <- & Hm).
    apply scan_index_ge in Hm. simpl in Hm. lia.
Qed.

(** Every match of a scan covers its own text at its own index. *)
Lemma scan_occurrence (r : regex) (aft : text) :
  forall (skip : nat) (bef : text) (m : Match),
    In m (scan r skip bef aft) ->
    exists post : text,
      skipn (index m) (rev bef ++ aft) = matched m ++ post.
Proof.
  induction aft as [ | c rest IH]; intros skip bef m Hin.
  - destruct skip as [ | n]; simpl in Hin; [|contradiction].
    destruct (exec_at r Some _) as [e|] eqn:He; [|contradiction].
    destruct Hin as [<- | []].
    apply exec_at_matched in He. exists (after e).
    unfold matchFrom at 1; simpl index.
    rewrite <- (length_rev bef), skipn_app, Nat.sub_diag, skipn_all; simpl.
    exact He.
  - assert (Hstep : forall n, In m (scan r n (c :: bef) rest) ->
              exists post, skipn (index m) (rev bef ++ c :: rest)
                           = matched m ++ post).
    { intros n Hn. apply IH in Hn as (post & Hpost). exists post.
      simpl in Hpost. rewrite <- app_assoc in Hpost. exact Hpost. }
    destruct skip as [ | n]; simpl in Hin; [|eauto].
    destruct (exec_at r Some _) as [e|] eqn:He; [|eauto].
    destruct Hin as [<- | Hin]; [|eauto].
    apply exec_at_matched in He. exists (after e).
    unfold matchFrom at 1; simpl index.
    rewrite <- (length_rev bef), skipn_app, Nat.sub_diag, skipn_all; simpl.
    exact He.
Qed.

(** Line numbers grow with the index. *)
Lemma lineAt_mono (content : text) (i j : nat) :
  i <= j -> lineAt content i <= lineAt content j.
Proof.
  intros Hij. unfold lineAt, lineCount.
  replace j with (i + (j - i)) by lia.
  rewrite <- take_take_drop, List.filter_app, length_app. lia.
Qed.

End MatcherFacts.

(** ** Order of findings *)

Section OrderFacts.

Import CheckLinks VerifyDesignTokens.

Lemma StronglySorted_app_le (l1 l2 : list nat) (i : nat) :
  StronglySorted le l1 -> StronglySorted le l2 ->
  Forall (fun x => x <= i) l1 -> Forall (fun x => i <= x) l2 ->
  StronglySorted le (l1 ++ l2).
Proof.
  intros S1 S2 F1 F2.
  induction S1 as [ | a l1 S1 IH Ha]; simpl; [exact S2|].
  inversion F1 as [ | ? ? Hai F1']; subst.
  constructor; [apply IH; exact F1'|].
  apply List.Forall_app. split; [exact Ha|].
  eapply List.Forall_impl; [|exact F2]. simpl. intros x Hx. lia.
Qed.

Lemma hardcodedOfPattern_index (content filePath : text) (p : regex) (i : nat) :
  Forall (fun x => x = i)
    (map h_pattern (hardcodedOfPattern content filePath p i)).
Proof.
  unfold hardcodedOfPattern.
  induction (matchAll p content) as [ | m ms IH]; simpl; [constructor|].
  destruct (negb (isException (matched m))); simpl; [constructor|]; auto.
Qed.

Lemma forEachIndexed_order (content filePath : text) (ps : list regex) :
  forall i : nat,
    StronglySorted le
      (map h_pattern (forEachIndexed (hardcodedOfPattern content filePath) ps i))
    /\ Forall (fun x => i <= x)
         (map h_pattern (forEachIndexed (hardcodedOfPattern content filePath) ps i)).
Proof.
  induction ps as [ | p ps IH]; intros i; simpl.
  - split; constructor.
  - destruct (IH (S i)) as (Hs & Hf).
    pose proof (hardcodedOfPattern_index content filePath p i) as Hi.
    rewrite map_app. split.
    + apply StronglySorted_app_le with (i := i).
      * induction Hi as [ | a l -> Hl IHl]; constructor; [exact IHl|].
        eapply List.Forall_impl; [|exact Hl]. simpl. intros x ->. lia.
      * exact Hs.
      * eapply List.Forall_impl; [|exact Hi]. simpl. intros x ->. lia.
      * eapply List.Forall_impl; [|exact Hf]. simpl. intros x Hx. lia.
    + apply List.Forall_app. split.
      * eapply List.Forall_impl; [|exact Hi]. simpl. intros x ->. lia.
      * eapply List.Forall_impl; [|exact Hf]. simpl. intros x Hx. lia.
Qed.

(** The links kept by [extractLinks] keep the order of the matches. *)
Lemma extractLinksIndexed_from_matches (content sourceFile : text)
  (ms : list Match) :
  StronglySorted lt (map index ms) ->
  let kept := flat_map (fun m => match linkOfMatch content sourceFile m with
                                 | Some l => [(index m, l)]
                                 | None => []
                                 end) ms in
  StronglySorted lt (map fst kept)
  /\ Forall (fun i => In i (map index ms)) (map fst kept)
  /\ Forall (fun il => line (snd il) = lineAt content (fst il)
                       /\ exists m, In m ms /\ index m = fst il) kept.
Proof.
  induction ms as [ | m ms IH]; intros Hs; simpl.
  - repeat split; constructor.
  - inversion Hs as [ | ? ? Hs' Hm]; subst.
    destruct (IH Hs') as (IH1 & IH2 & IH3). clear IH.
    assert (IH2' : Forall (fun i => index m = i \/ In i (map index ms))
                     (map fst (flat_map
                        (fun m => match linkOfMatch content sourceFile m with
                                  | Some l => [(index m, l)]
                                  | None => []
                                  end) ms))).
    { eapply List.Forall_impl; [|exact IH2]. simpl. auto. }
    assert (IH3' : Forall (fun il => line (snd il) = lineAt content (fst il)
                             /\ exists m', (m = m' \/ In m' ms)
                                           /\ index m' = fst il)
                     (flat_map
                        (fun m => match linkOfMatch content sourceFile m with
                                  | Some l => [(index m, l)]
                                  | None => []
                                  end) ms)).
    { eapply List.Forall_impl; [|exact IH3]. simpl.
      intros il (Hl & m' & Hin & Hidx). split; [exact Hl|].
      exists m'. auto. }
    destruct (linkOfMatch content sourceFile m) as [l|] eqn:Hl; simpl.
    + split; [|split].
      * constructor; [exact IH1|].
        apply List.Forall_forall. intros i Hi.
        rewrite List.Forall_forall in IH2, Hm. auto.
      * constructor; auto.
      * constructor; [|exact IH3'].
        simpl. split.
        -- unfold linkOfMatch in Hl.
           destruct (_ || _); [discriminate|].
           destruct (startsWith _ _); [discriminate|].
           injection Hl as <-. reflexivity.
        -- exists m. auto.
    + auto.
Qed.

Lemma lines_sorted (content : text) (kept : list (nat * Link)) :
  StronglySorted lt (map fst kept) ->
  Forall (fun il => line (snd il) = lineAt content (fst il)) kept ->
  StronglySorted le (map line (map snd kept)).
Proof.
  induction kept as [ | [i l] kept IH]; intros Hs Hl; simpl; [constructor|].
  inversion Hs as [ | ? ? Hs' Hi]; subst.
  inversion Hl as [ | ? ? Hil Hl']; subst. simpl in Hil.
  constructor; [apply IH; assumption|].
  clear IH Hs Hl Hs'.
  induction kept as [ | [j l'] kept IH]; simpl; [constructor|].
  inversion Hi as [ | ? ? Hij Hi']; subst.
  inversion Hl' as [ | ? ? Hjl Hl'']; subst. simpl in Hij, Hjl.
  constructor; [|apply IH; assumption].
  rewrite Hil, Hjl. apply lineAt_mono. lia.
Qed.

(** C8, as stated, fails for [findHardcodedValues]: a z-index on line 1
    and a colour on line 2 are reported colour first, so the reported
    lines are 2 then 1. *)
Lemma findHardcodedValues_order_counterexample :
  let content := txt "z-index: 5;" ++ [nl] ++ txt "color: #FFF;" in
  map (fun i => (h_line i, h_value i, h_pattern i))
    (findHardcodedValues content (txt "page.html"))
  = [ (2, txt "#FFF", 0); (1, txt "z-index: 5", 7) ]
  /\ ~ StronglySorted le
         (map h_line (findHardcodedValues content (txt "page.html"))).
Proof.
  split; [vm_compute; reflexivity|].
  intros Hs.
  assert (E : map h_line (findHardcodedValues
                 (txt "z-index: 5;" ++ [nl] ++ txt "color: #FFF;")
                 (txt "page.html")) = [2; 1]) by (vm_compute; reflexivity).
  rewrite E in Hs.
  inversion Hs as [ | ? ? _ Hf]; subst.
  inversion Hf as [ | ? ? Hle _]; subst. lia.
Qed.

(** The line [findHardcodedValues] reports is found with [indexOf], so it
    is the line of the first occurrence of the matched text: the colour on
    line 3 is reported on line 1. *)
Remark findHardcodedValues_line_of_first_occurrence :
  let content := txt "a { color: #FFF; }" ++ [nl; nl] ++ txt "b { color: #FFF; }" in
  map (fun m => lineAt content (index m))
    (matchAll (nth 0 HARDCODED_PATTERNS Empty) content) = [1; 3]
  /\ map h_line (findHardcodedValues content (txt "page.html")) = [1; 1].
Proof. split; vm_compute; reflexivity. Qed.

(** C8, amended: the links [extractLinks] returns are in document order:
    they come from matches at strictly increasing indices, each link
    carries the line of the index its own match starts at, and so the
    reported lines never decrease.  The findings of [findHardcodedValues]
    are emitted pattern by pattern, in the order of [HARDCODED_PATTERNS]. *)
Theorem extractLinks_document_order (content sourceFile : text) :
  let indexed := extractLinksIndexed content sourceFile in
  extractLinks content sourceFile = map snd indexed
  /\ StronglySorted lt (map fst indexed)
  /\ Forall (fun il =>
               line (snd il) = lineAt content (fst il)
               /\ exists m : Match,
                    In m (matchAll linkRegex content)
                    /\ index m = fst il
                    /\ exists post : text,
                         skipn (fst il) content = matched m ++ post)
       indexed
  /\ StronglySorted le (map line (extractLinks content sourceFile))
  /\ StronglySorted le
       (map h_pattern (findHardcodedValues content sourceFile)).
Proof.
  intros indexed.
  pose proof (scan_sorted linkRegex content 0 []) as Hsorted.
  destruct (extractLinksIndexed_from_matches content sourceFile
              (matchAll linkRegex content) Hsorted) as (H1 & _ & H3).
  fold (extractLinksIndexed content sourceFile) in H1, H3.
  fold indexed in H1, H3.
  split; [reflexivity|]. split; [exact H1|]. split; [|split].
  - eapply List.Forall_impl; [|exact H3]. simpl.
    intros il (Hl & m & Hin & Hidx). split; [exact Hl|].
    exists m. split; [exact Hin|]. split; [exact Hidx|].
    apply scan_occurrence in Hin as (post & Hpost).
    exists post. rewrite <- Hidx. exact Hpost.
  - apply lines_sorted with (content := content); [exact H1|].
    eapply List.Forall_impl; [|exact H3]. simpl. intros il (Hl & _). exact Hl.
  - apply forEachIndexed_order.
Qed.

End OrderFacts.

(** ** Text search *)

Section TextFacts.

Lemma startsWith_spec (p s : text) :
  startsWith p s = true <-> exists rest : text, s = p ++ rest.
Proof.
  revert s. induction p as [ | a p IH]; intros s; simpl.
  - split; [intros _; exists s; reflexivity | reflexivity].
  - destruct s as [ | b s]; simpl.
    + split; [discriminate | intros (rest & H); discriminate].
    + rewrite andb_true_iff, Ascii.eqb_eq, IH. split.
      * intros (-> & rest & ->). exists rest. reflexivity.
      * intros (rest & [= -> ->]). split; [reflexivity | exists rest; reflexivity].
Qed.

Lemma includes_spec (p s : text) :
  includes p s = true <-> exists pre post : text, s = pre ++ p ++ post.
Proof.
  induction s as [ | c s IH]; simpl.
  - rewrite startsWith_spec. split.
    + intros (rest & H). exists [], rest. exact H.
    + intros (pre & post & H).
      destruct pre; [exists post; exact H | discriminate].
  - rewrite orb_true_iff, startsWith_spec, IH. split.
    + intros [(rest & H) | (pre & post & ->)].
      * exists [], rest. exact H.
      * exists (c :: pre), post. reflexivity.
    + intros (pre & post & H). destruct pre as [ | c' pre]; simpl in H.
      * left. exists post. exact H.
      * right. injection H as -> ->. exists pre, post. reflexivity.
Qed.

End TextFacts.

(** ** Hardcoded values and legacy tokens *)

Section VerifyFacts.

Import VerifyDesignTokens.

(** What the exception test of [findHardcodedValues] decides: a match is
    suppressed when some allowed exception occurs inside it. *)
Lemma isException_substring (m : text) :
  isException m = true <->
  exists exception : text,
    In exception ALLOWED_EXCEPTIONS
    /\ exists pre post : text, m = pre ++ exception ++ post.
Proof.
  unfold isException. rewrite existsb_exists.
  split; intros (e & Hin & H); exists e; (split; [exact Hin|]);
    apply includes_spec; exact H.
Qed.

(** The findings one pattern contributes: one for each of its matches in
    which no allowed exception occurs. *)
Lemma hardcodedOfPattern_reports (content filePath : text) (p : regex)
  (i : nat) (issue : HardcodedIssue) :
  In issue (hardcodedOfPattern content filePath p i) <->
  exists m : Match,
    In m (matchAll p content)
    /\ isException (matched m) = false
    /\ issue = {| h_type := txt "hardcoded_value";
                  h_file := filePath;
                  h_line := lineOfFirst content (matched m);
                  h_value := trim (matched m);
                  h_pattern := i |}.
Proof.
  unfold hardcodedOfPattern. rewrite in_flat_map. split.
  - intros (m & Hin & Hissue).
    destruct (isException (matched m)) eqn:He; simpl in Hissue; [contradiction|].
    destruct Hissue as [<- | []]. exists m. auto.
  - intros (m & Hin & He & ->). exists m. split; [exact Hin|].
    rewrite He. simpl. auto.
Qed.

(** C2: the colour [#FFD700] is matched by the first pattern and is not a
    member of [ALLOWED_EXCEPTIONS], yet it is suppressed, because the
    exception [0] occurs inside it: the page yields no finding. *)
Lemma findHardcodedValues_suppresses_by_substring :
  let content := txt "color: #FFD700;" in
  map matched (matchAll (nth 0 HARDCODED_PATTERNS Empty) content)
  = [txt "#FFD700"]
  /\ ~ In (txt "#FFD700") ALLOWED_EXCEPTIONS
  /\ isException (txt "#FFD700") = true
  /\ findHardcodedValues content (txt "page.html") = [].
Proof.
  split; [vm_compute; reflexivity|].
  split; [|split; vm_compute; reflexivity].
  unfold ALLOWED_EXCEPTIONS. rewrite List.in_map_iff.
  intros (s & Hs & Hin). simpl in Hin.
  repeat (destruct Hin as [<- | Hin]; [discriminate Hs|]).
  exact Hin.
Qed.

(** C5, as stated, fails: the text [var(--old-space-1)] holds no legacy
    token for the detector, since no pattern matches inside it. *)
Lemma findLegacyTokens_old_space_counterexample :
  findLegacyTokens (txt "var(--old-space-1)") (txt "page.html") = [].
Proof. vm_compute. reflexivity. Qed.

(** C5, amended: a reference to the legacy name itself, [var(--space-1)],
    yields exactly one legacy-token finding, for the value [--space-1];
    its suggestion is the successor prefix [--space-], not a full name.
    The text [var(--old-space-1)] yields no finding.  The detector returns
    findings only: it has no text to hand back. *)
Theorem findLegacyTokens_space_1 (filePath : text) :
  findLegacyTokens (txt "var(--space-1)") filePath
  = [ {| l_type := txt "legacy_token";
         l_file := filePath;
         l_line := 1;
         l_value := txt "--space-1";
         l_suggestion := txt "--space-";
         l_message := txt "Use semantic spacing tokens" |} ]
  /\ findLegacyTokens (txt "var(--old-space-1)") filePath = [].
Proof. split; vm_compute; reflexivity. Qed.

End VerifyFacts.

(** ** Validation against the interlinking map *)

Section CheckLinksFacts.

Import CheckLinks.

(** What [validateAgainstMap] reports for a page with an entry in the map:
    one finding for each entry with a non-empty path that is not the target
    of a link of the page, whether or not the entry is tagged. *)
Lemma validateAgainstMap_reports (interlinkingMap : InterlinkingMap)
  (links : list Link) (sourceFile : text) (expectedLinks : LinkPattern)
  (issue : MapIssue) :
  find (fun p => text_eqb (from p) sourceFile) (patterns interlinkingMap)
  = Some expectedLinks ->
  In issue (validateAgainstMap (Some interlinkingMap) links sourceFile) <->
  exists (link : LinkSpec) (expectedPath : text),
    In link (to expectedLinks)
    /\ path link = Some expectedPath
    /\ expectedPath <> []
    /\ ~ In expectedPath (map href links)
    /\ issue = {| i_type := txt "missing_expected_link";
                  i_source := sourceFile;
                  i_expected := expectedPath;
                  i_message := txt "Missing expected link to " ++ expectedPath |}.
Proof.
  intros Hfind. unfold validateAgainstMap. rewrite Hfind.
  rewrite in_flat_map. unfold expectedPathsOf.
  assert (Hmem : forall x : text,
            existsb (text_eqb x) (map href links) = true
            <-> In x (map href links)).
  { intros x. rewrite existsb_exists. unfold text_eqb. split.
    - intros (y & Hy & E). apply bool_decide_eq_true in E as ->. exact Hy.
    - intros Hx. exists x. split; [exact Hx|].
      apply bool_decide_eq_true. reflexivity. }
  split.
  - intros (expectedPath & Hexp & Hissue).
    apply in_flat_map in Hexp as (link & Hlink & Hpath).
    destruct (path link) as [[ | c rest] | ] eqn:Hp; simpl in Hpath;
      try contradiction.
    destruct Hpath as [<- | []].
    destruct (existsb (text_eqb (c :: rest)) (map href links)) eqn:He;
      simpl in Hissue; [contradiction|].
    destruct Hissue as [<- | []].
    exists link, (c :: rest).
    split; [exact Hlink|]. split; [exact Hp|].
    split; [discriminate|]. split; [|reflexivity].
    intros Hin. apply Hmem in Hin. congruence.
  - intros (link & expectedPath & Hlink & Hp & Hne & Hnot & ->).
    exists expectedPath. split.
    + apply in_flat_map. exists link. split; [exact Hlink|].
      rewrite Hp. destruct expectedPath; [contradiction|]. simpl. auto.
    + destruct (existsb (text_eqb expectedPath) (map href links)) eqn:He.
      * apply Hmem in He. contradiction.
      * simpl. auto.
Qed.

(** C4: an entry tagged [relate] that has a path is expected like any
    other.  The page links to the quote form, the only entry without a
    tag, and still gets a missing-expected-link finding for the tagged
    entry. *)
Lemma validateAgainstMap_requires_relate_edges :
  let home := txt "home.html" in
  let interlinkingMap :=
    {| patterns :=
         [ {| from := home;
              to := [ {| path := Some (txt "quote.html");
                         anchor := Some (txt "Get Quote");
                         relate := None |};
                      {| path := Some (txt "service-area-edmond.html");
                         anchor := Some (txt "Edmond movers");
                         relate := Some (txt "nearby") |} ] |} ] |} in
  let content := q "<p><a href=`quote.html`>Get Quote</a></p>" in
  map href (extractLinks content home) = [txt "quote.html"]
  /\ validateAgainstMap (Some interlinkingMap) (extractLinks content home) home
     = [ {| i_type := txt "missing_expected_link";
            i_source := home;
            i_expected := txt "service-area-edmond.html";
            i_message := txt "Missing expected link to service-area-edmond.html" |} ].
Proof. split; vm_compute; reflexivity. Qed.

End CheckLinksFacts.

(** ** Breadcrumbs *)

Section BreadcrumbFacts.

Import ApplyInterlinkingMap.





End BreadcrumbFacts.

(** ** Batch runs *)

Section BatchFacts.

Lemma fold_left_add_list_sum {A : Type} (f : A -> nat) (l : list A) (acc : nat) :
  fold_left (fun sum a => sum + f a) l acc = acc + list_sum (map f l).
Proof.
  revert acc. induction l as [ | a l IH]; intros acc; simpl; [lia|].
  rewrite IH. lia.
Qed.


Lemma CheckLinks_main_isolates (fs : FileSystem)
  (interlinkingMap : option InterlinkingMap) (htmlFiles : list text) :
  exists run : CheckLinks.Run,
    CheckLinks.main fs interlinkingMap htmlFiles = Return run
    /\ isolates fs htmlFiles (CheckLinks.analyzeFile fs interlinkingMap)
         CheckLinks.emptyResult CheckLinks.total
         (CheckLinks.results run) (CheckLinks.errors run)
         (CheckLinks.exitCode run).
Proof.
  assert (Hres : Forall2 (fun f r =>
             match readFileSync fs f with
             | Throw _ => r = CheckLinks.emptyResult f
             | Return _ => CheckLinks.analyzeFile fs interlinkingMap f = Return r
             end) htmlFiles
            (map fst (map (CheckLinks.analyzeOrLog fs interlinkingMap) htmlFiles))).
  { induction htmlFiles as [ | f l IH]; simpl; constructor; [|exact IH].
    unfold CheckLinks.analyzeOrLog, CheckLinks.analyzeFile.
    destruct (readFileSync fs f); reflexivity. }
  assert (Herr : forall f e, In f htmlFiles -> readFileSync fs f = Throw e ->
             In (f, e) (flat_map snd
                          (map (CheckLinks.analyzeOrLog fs interlinkingMap)
                             htmlFiles))).
  { intros f e Hin Hread.
    induction htmlFiles as [ | g l IH]; simpl in *; [contradiction|].
    apply in_or_app. destruct Hin as [-> | Hin].
    - left. unfold CheckLinks.analyzeOrLog, CheckLinks.analyzeFile.
      rewrite Hread. simpl. auto.
    - right. apply IH; [|exact Hin].
      inversion Hres; assumption. }
  destruct htmlFiles as [ | f l].
  - eexists. split; [reflexivity|]. simpl.
    split; [constructor|]. split; [intros ? ? []|reflexivity].
  - eexists. split; [reflexivity|].
    split; [exact Hres|]. split; [exact Herr|].
    cbn [CheckLinks.exitCode]. unfold CheckLinks.totalIssues.
    rewrite fold_left_add_list_sum. reflexivity.
Qed.

Lemma VerifyDesignTokens_main_isolates (fs : FileSystem)
  (htmlFiles : list text) :
  exists run : VerifyDesignTokens.Run,
    VerifyDesignTokens.main fs htmlFiles = Return run
    /\ isolates fs htmlFiles (VerifyDesignTokens.analyzeFile fs)
         VerifyDesignTokens.emptyResult VerifyDesignTokens.total
         (VerifyDesignTokens.results run) (VerifyDesignTokens.errors run)
         (VerifyDesignTokens.exitCode run).
Proof.
  assert (Hres : Forall2 (fun f r =>
             match readFileSync fs f with
             | Throw _ => r = VerifyDesignTokens.emptyResult f
             | Return _ => VerifyDesignTokens.analyzeFile fs f = Return r
             end) htmlFiles
            (map fst (map (VerifyDesignTokens.analyzeOrLog fs) htmlFiles))).
  { induction htmlFiles as [ | f l IH]; simpl; constructor; [|exact IH].
    unfold VerifyDesignTokens.analyzeOrLog, VerifyDesignTokens.analyzeFile.
    destruct (readFileSync fs f); reflexivity. }
  assert (Herr : forall f e, In f htmlFiles -> readFileSync fs f = Throw e ->
             In (f, e) (flat_map snd
                          (map (VerifyDesignTokens.analyzeOrLog fs) htmlFiles))).
  { intros f e Hin Hread.
    induction htmlFiles as [ | g l IH]; simpl in *; [contradiction|].
    apply in_or_app. destruct Hin as [-> | Hin].
    - left. unfold VerifyDesignTokens.analyzeOrLog, VerifyDesignTokens.analyzeFile.
      rewrite Hread. simpl. auto.
    - right. apply IH; [|exact Hin].
      inversion Hres; assumption. }
  destruct htmlFiles as [ | f l].
  - eexists. split; [reflexivity|]. simpl.
    split; [constructor|]. split; [intros ? ? []|reflexivity].
  - eexists. split; [reflexivity|].
    split; [exact Hres|]. split; [exact Herr|].
    cbn [VerifyDesignTokens.exitCode]. unfold VerifyDesignTokens.totalIssues.
    rewrite fold_left_add_list_sum. reflexivity.
Qed.


(** C7, as stated, fails in its middle part: when [a.html] cannot be read
    each audit goes on to [b.html], but the result it keeps for [a.html]
    has no finding and total 0, and the run ends with exit status 0; the
    error is only printed. *)
Lemma main_read_error_counterexample :
  let a := txt "a.html" in
  let b := txt "b.html" in
  readFileSync brokenFs a = Throw (ReadError a)
  /\ CheckLinks.main brokenFs None [a; b]
     = Return {| CheckLinks.results :=
                   [ {| CheckLinks.file := a; CheckLinks.links := [];
                        CheckLinks.broken := []; CheckLinks.validation := [];
                        CheckLinks.total := 0 |};
                     {| CheckLinks.file := b; CheckLinks.links := [];
                        CheckLinks.broken := []; CheckLinks.validation := [];
                        CheckLinks.total := 0 |} ];
                 CheckLinks.errors := [(a, ReadError a)];
                 CheckLinks.exitCode := 0 |}
  /\ VerifyDesignTokens.main brokenFs [a; b]
     = Return {| VerifyDesignTokens.results :=
                   [ {| VerifyDesignTokens.file := a;
                        VerifyDesignTokens.hardcoded := [];
                        VerifyDesignTokens.unused := [];
                        VerifyDesignTokens.legacy := [];
                        VerifyDesignTokens.total := 0 |};
                     {| VerifyDesignTokens.file := b;
                        VerifyDesignTokens.hardcoded := [];
                        VerifyDesignTokens.unused := [];
                        VerifyDesignTokens.legacy := [];
                        VerifyDesignTokens.total := 0 |} ];
                 VerifyDesignTokens.errors := [(a, ReadError a)];
                 VerifyDesignTokens.exitCode := 0 |}.
Proof. repeat split; vm_compute; reflexivity. Qed.

(** C7, amended: neither audit throws when pages fail to be read.  Each
    run completes with one result per page, in the order of the pages:
    the result of [analyzeFile] for a page that was read, and for a page
    whose read threw an empty result (no finding, total 0) while the
    error is printed to the error console.  The exit status is 1 exactly
    when the totals of the results add up to more than 0, so a page that
    could not be read adds nothing to it. *)
Theorem main_isolates_read_errors (fs : FileSystem)
  (interlinkingMap : option InterlinkingMap) (htmlFiles : list text) :
  (exists run : CheckLinks.Run,
     CheckLinks.main fs interlinkingMap htmlFiles = Return run
     /\ isolates fs htmlFiles (CheckLinks.analyzeFile fs interlinkingMap)
          CheckLinks.emptyResult CheckLinks.total
          (CheckLinks.results run) (CheckLinks.errors run)
          (CheckLinks.exitCode run))
  /\ (exists run : VerifyDesignTokens.Run,
        VerifyDesignTokens.main fs htmlFiles = Return run
        /\ isolates fs htmlFiles (VerifyDesignTokens.analyzeFile fs)
             VerifyDesignTokens.emptyResult VerifyDesignTokens.total
             (VerifyDesignTokens.results run) (VerifyDesignTokens.errors run)
             (VerifyDesignTokens.exitCode run))
  /\ (forall f : text,
        CheckLinks.total (CheckLinks.emptyResult f) = 0
        /\ CheckLinks.broken (CheckLinks.emptyResult f) = []
        /\ CheckLinks.validation (CheckLinks.emptyResult f) = []
        /\ VerifyDesignTokens.total (VerifyDesignTokens.emptyResult f) = 0
        /\ VerifyDesignTokens.hardcoded (VerifyDesignTokens.emptyResult f) = []
        /\ VerifyDesignTokens.unused (VerifyDesignTokens.emptyResult f) = []
        /\ VerifyDesignTokens.legacy (VerifyDesignTokens.emptyResult f) = []).
Proof.
  split; [apply CheckLinks_main_isolates|].
  split; [apply VerifyDesignTokens_main_isolates|].
  intros f. repeat split.
Qed.

End BatchFacts.

(** ** Literal patterns and global replacement *)

Section LiteralFacts.

(** A literal pattern matches exactly where the text starts with it. *)
Lemma exec_at_Str (k : text) :
  forall (K : MState -> option MState) (s : MState),
    exec_at (Str k) K s
    = if startsWith k (after s)
      then K {| before := rev k ++ before s;
                after := skipn (length k) (after s);
                groups := groups s |}
      else None.
Proof.
  induction k as [ | a k IH]; intros K s; simpl.
  - destruct s; reflexivity.
  - destruct (after s) as [ | c rest] eqn:Haft; [reflexivity|].
    destruct (Ascii.eqb a c) eqn:Hac; simpl; [|reflexivity].
    apply Ascii.eqb_eq in Hac as <-.
    rewrite IH. unfold advance; simpl.
    rewrite <- app_assoc. reflexivity.
Qed.

(** What [escapeRegExp] returns: a backslash before each syntax
    character. *)
Lemma escapeRegExp_flat_map (s : text) :
  escapeRegExp s
  = flat_map (fun c => if isRegexSpecial c then ["\"%char; c] else [c]) s.
Proof.
  unfold escapeRegExp, replaceAll.
  enough (H : forall bef : text,
             replaceScan (Char isRegexSpecial)
               (fun m => getSubstitution m (txt "\$&")) 0 bef s
             = flat_map (fun c => if isRegexSpecial c
                                  then ["\"%char; c] else [c]) s)
    by apply H.
  induction s as [ | c rest IH]; intros bef; [reflexivity|].
  cbn [replaceScan exec_at after flat_map].
  destruct (isRegexSpecial c) eqn:Hc.
  - unfold matchFrom, advance; cbn [before matched length].
    replace (S (length bef) - length bef) with 1 by lia.
    cbn. rewrite IH. reflexivity.
  - rewrite IH. reflexivity.
Qed.

(** Escaping and compiling a string gives the literal pattern for it. *)
Lemma RegExpEscaped_escapeRegExp (s : text) :
  RegExpEscaped (escapeRegExp s) = Str s.
Proof.
  rewrite escapeRegExp_flat_map.
  induction s as [ | c rest IH]; [reflexivity|].
  cbn [flat_map]. destruct (isRegexSpecial c) eqn:Hc.
  - cbn [app RegExpEscaped]. rewrite Ascii.eqb_refl.
    cbn [Str]. rewrite IH. reflexivity.
  - cbn [app RegExpEscaped].
    destruct (Ascii.eqb c "\") eqn:Hbs.
    + apply Ascii.eqb_eq in Hbs as ->. discriminate Hc.
    + cbn [Str]. rewrite IH. reflexivity.
Qed.

(** A replacement string without a dollar sign stands for itself. *)
Lemma getSubstitution_plain (m : Match) (repl : text) :
  existsb (Ascii.eqb "$") repl = false -> getSubstitution m repl = repl.
Proof.
  induction repl as [ | c rest IH]; intros H; [reflexivity|].
  cbn [existsb] in H. apply orb_false_iff in H as (Hc & Hrest).
  cbn [getSubstitution]. rewrite Ascii.eqb_sym, Hc, IH by exact Hrest.
  reflexivity.
Qed.

Lemma replaceScan_skip (r : regex) (f : Match -> text) :
  forall (n : nat) (aft bef : text),
    n <= length aft ->
    replaceScan r f n bef aft
    = replaceScan r f 0 (rev (firstn n aft) ++ bef) (skipn n aft).
Proof.
  induction n as [ | n IH]; intros aft bef Hn.
  - reflexivity.
  - destruct aft as [ | c rest]; simpl in Hn; [lia|].
    cbn [replaceScan firstn skipn rev]. rewrite IH by lia.
    rewrite <- app_assoc. reflexivity.
Qed.

Section OneEntry.

Variables k v : text.
Hypothesis k_nonempty : k <> [].
Hypothesis v_plain : existsb (Ascii.eqb "$") v = false.


Lemma replaced_nil (bef : text) : replaced k v bef [] = [].
Proof.
  unfold replaced. cbn [replaceScan]. rewrite exec_at_Str. cbn [after].
  destruct k; [contradiction | reflexivity].
Qed.

Lemma replaced_miss (bef : text) (c : ascii) (rest : text) :
  startsWith k (c :: rest) = false ->
  replaced k v bef (c :: rest) = c :: replaced k v (c :: bef) rest.
Proof.
  intros H. unfold replaced. cbn [replaceScan].
  rewrite exec_at_Str. cbn [after]. rewrite H. reflexivity.
Qed.

Lemma replaced_hit (bef aft : text) :
  replaced k v bef (k ++ aft) = v ++ replaced k v (rev k ++ bef) aft.
Proof.
  unfold replaced.
  destruct k as [ | c0 k'] eqn:Hk; [contradiction|].
  cbn [replaceScan app]. rewrite exec_at_Str. cbn [after before groups].
  assert (Hs : startsWith (c0 :: k') (c0 :: k' ++ aft) = true).
  { apply startsWith_spec. exists aft. reflexivity. }
  rewrite Hs.
  assert (Hm : matched (matchFrom bef
                 {| before := rev (c0 :: k') ++ bef;
                    after := skipn (length (c0 :: k')) (c0 :: k' ++ aft);
                    groups := [] |}) = c0 :: k').
  { unfold matchFrom; cbn [matched before].
    rewrite length_app, length_rev.
    replace (length (c0 :: k') + length bef - length bef)
      with (length (rev (c0 :: k'))) by (rewrite length_rev; lia).
    rewrite firstn_app, Nat.sub_diag, firstn_all; simpl firstn.
    rewrite app_nil_r, rev_involutive. reflexivity. }
  rewrite Hm, getSubstitution_plain by exact v_plain.
  cbn [length Nat.eqb app Nat.sub]. rewrite Nat.sub_0_r.
  rewrite replaceScan_skip by (rewrite length_app; lia).
  rewrite firstn_app, Nat.sub_diag, firstn_all, skipn_app, Nat.sub_diag,
    skipn_all. cbn [firstn skipn app rev].
  rewrite app_nil_r, <- app_assoc. reflexivity.
Qed.

(** Where the old value does not occur, nothing is replaced. *)
Lemma replaced_absent (aft : text) :
  forall bef : text, includes k aft = false -> replaced k v bef aft = aft.
Proof.
  induction aft as [ | c rest IH]; intros bef H.
  - apply replaced_nil.
  - cbn [includes] in H. apply orb_false_iff in H as (Hs & Hrest).
    rewrite replaced_miss by exact Hs. rewrite IH by exact Hrest.
    reflexivity.
Qed.

End OneEntry.

End LiteralFacts.

(** ** Old values and token references never overlap *)


Section OverlapFacts.

Lemma in_tails (p x : text) : x <> [] -> In x (tails (p ++ x)).
Proof.
  intros Hx. induction p as [ | c p IH]; simpl.
  - destruct x; [contradiction | left; reflexivity].
  - right. exact IH.
Qed.

Lemma apart_spec (a b p x : text) :
  apart a b = true -> a = p ++ x -> x <> [] ->
  startsWith x b = false /\ startsWith b x = false.
Proof.
  intros Hab -> Hx. unfold apart in Hab.
  rewrite forallb_forall in Hab.
  specialize (Hab x (in_tails p x Hx)).
  apply andb_true_iff in Hab as (H1 & H2).
  apply negb_true_iff in H1, H2. split; assumption.
Qed.

(** A text that starts [a ++ b] either starts within [a] or reaches [b]. *)
Lemma startsWith_app_cases (k a b : text) :
  startsWith k (a ++ b) = true ->
  startsWith k a = true
  \/ exists x : text, x <> [] /\ k = a ++ x /\ startsWith x b = true.
Proof.
  revert k. induction a as [ | c a IH]; intros k H.
  - destruct k as [ | d k]; [left; reflexivity|].
    right. exists (d :: k). split; [discriminate|]. split; [reflexivity | exact H].
  - destruct k as [ | d k]; [left; reflexivity|].
    cbn [app startsWith] in H |- *.
    apply andb_true_iff in H as (Hd & H).
    apply IH in H as [H | (x & Hx & -> & Hs)].
    + left. rewrite Hd, H. reflexivity.
    + right. exists x. apply Ascii.eqb_eq in Hd as ->. auto.
Qed.

(** A text cannot start across the seam of [v] when it is apart from it. *)
Lemma startsWith_seam (k' v p rest : text) :
  apart k' v = true ->
  startsWith k' p = false ->
  startsWith k' (p ++ v ++ rest) = false.
Proof.
  intros Hap Hp.
  destruct (startsWith k' (p ++ v ++ rest)) eqn:H; [|reflexivity].
  apply startsWith_app_cases in H as [H | (x & Hx & Hk & Hs)]; [congruence|].
  destruct (apart_spec k' v p x Hap Hk Hx) as (H1 & H2).
  apply startsWith_app_cases in Hs as [Hs | (y & _ & -> & _)]; [congruence|].
  assert (startsWith v (v ++ y) = true)
    by (apply startsWith_spec; exists y; reflexivity).
  congruence.
Qed.

Lemma startsWith_prefix_false (k p rest : text) :
  startsWith k (p ++ rest) = false -> startsWith k p = false.
Proof.
  intros H. destruct (startsWith k p) eqn:Hp; [|reflexivity].
  apply startsWith_spec in Hp as (r & ->).
  rewrite <- H. symmetry. apply startsWith_spec.
  exists (r ++ rest). rewrite app_assoc. reflexivity.
Qed.

(** No occurrence of [k'] starts inside an inserted [v]. *)
Lemma includes_after_inserted (k' v X : text) :
  apart v k' = true ->
  includes k' X = false ->
  forall p y : text, v = p ++ y -> includes k' (y ++ X) = false.
Proof.
  intros Hap HX p y. revert p.
  induction y as [ | c y IH]; intros p Hv; [exact HX|].
  cbn [app includes]. apply orb_false_iff. split.
  - destruct (startsWith k' (c :: y ++ X)) eqn:H; [|reflexivity].
    destruct (apart_spec v k' p (c :: y) Hap Hv ltac:(discriminate))
      as (H1 & H2).
    change (c :: y ++ X) with ((c :: y) ++ X) in H.
    apply startsWith_app_cases in H as [H | (x & _ & -> & _)]; [congruence|].
    assert (startsWith (c :: y) ((c :: y) ++ x) = true)
      by (apply startsWith_spec; exists x; reflexivity).
    congruence.
  - apply (IH (p ++ [c])). rewrite <- app_assoc. exact Hv.
Qed.

Lemma includes_suffix_false (k a b : text) :
  includes k (a ++ b) = false -> includes k b = false.
Proof.
  induction a as [ | c a IH]; intros H; [exact H|].
  cbn [app includes] in H. apply orb_false_iff in H as (_ & H). auto.
Qed.

Section OneEntryOverlap.

Variables k v : text.
Hypothesis k_nonempty : k <> [].
Hypothesis v_plain : existsb (Ascii.eqb "$") v = false.

(** Replacing [k] by [v] does not make a text start with [k']. *)
Lemma replaced_keeps_start (k' : text) :
  apart k' v = true ->
  forall aft p bef : text,
    startsWith k' (p ++ aft) = false ->
    startsWith k' (p ++ replaced k v bef aft) = false.
Proof.
  intros Hap aft.
  induction aft as [ | c rest IH]; intros p bef H.
  - rewrite replaced_nil by exact k_nonempty. exact H.
  - destruct (startsWith k (c :: rest)) eqn:Hk.
    + apply startsWith_spec in Hk as (aft2 & Hk). rewrite Hk.
      rewrite replaced_hit by assumption.
      apply startsWith_seam; [exact Hap|].
      eapply startsWith_prefix_false. exact H.
    + rewrite replaced_miss by exact Hk.
      change (p ++ c :: replaced k v (c :: bef) rest)
        with (p ++ [c] ++ replaced k v (c :: bef) rest).
      rewrite app_assoc. apply IH. rewrite <- app_assoc. exact H.
Qed.

(** After replacing [k] by [v], the text holds no [k'] if [k'] is [k]
    itself or did not occur before. *)
Lemma replaced_clean (k' : text) :
  k' <> [] ->
  overlapFree k' v = true ->
  forall (n : nat) (aft bef : text),
    length aft <= n ->
    k' = k \/ includes k' aft = false ->
    includes k' (replaced k v bef aft) = false.
Proof.
  intros Hk' Hov.
  apply andb_true_iff in Hov as (Hap1 & Hap2).
  induction n as [ | n IH]; intros aft bef Hlen Hocc.
  - destruct aft; [|simpl in Hlen; lia].
    rewrite replaced_nil by exact k_nonempty.
    destruct k'; [contradiction | reflexivity].
  - destruct aft as [ | c rest].
    + rewrite replaced_nil by exact k_nonempty.
      destruct k'; [contradiction | reflexivity].
    + destruct (startsWith k (c :: rest)) eqn:Hk.
      * apply startsWith_spec in Hk as (aft2 & Hk). rewrite Hk.
        rewrite replaced_hit by assumption.
        apply (includes_after_inserted k' v _ Hap2) with (p := []);
          [|reflexivity].
        apply IH.
        -- assert (length (c :: rest) = length k + length aft2)
             by (rewrite Hk, length_app; reflexivity).
           destruct k; [contradiction|]. simpl in *. lia.
        -- destruct Hocc as [-> | Hocc]; [left; reflexivity|].
           right. rewrite Hk in Hocc.
           eapply includes_suffix_false. exact Hocc.
      * rewrite replaced_miss by exact Hk.
        assert (Hs : startsWith k' (c :: rest) = false).
        { destruct Hocc as [-> | Hocc]; [exact Hk|].
          cbn [includes] in Hocc.
          apply orb_false_iff in Hocc as (Hocc & _). exact Hocc. }
        cbn [includes]. apply orb_false_iff. split.
        -- apply (replaced_keeps_start k' Hap1 rest [c] (c :: bef)).
           exact Hs.
        -- apply IH; [simpl in Hlen; lia|].
           destruct Hocc as [-> | Hocc]; [left; reflexivity|].
           right. cbn [includes] in Hocc.
           apply orb_false_iff in Hocc as (_ & Hocc). exact Hocc.
Qed.

End OneEntryOverlap.

End OverlapFacts.

(** ** Token rewriting *)

Section ApplyTokensFacts.

Import ApplyTokens.

Lemma replaceEntry_replaced (t : text) (e : text * text) :
  replaceEntry t e = replaced (fst e) (snd e) [] t.
Proof.
  destruct e as [k v]. unfold replaceEntry, replaceAll, replaced.
  rewrite RegExpEscaped_escapeRegExp. reflexivity.
Qed.

Lemma applyMappings_concat (ms : list Mapping) :
  forall t : text,
    applyMappings ms t = fold_left replaceEntry (concat ms) t.
Proof.
  unfold applyMappings.
  induction ms as [ | m ms IH]; intros t; [reflexivity|].
  cbn [fold_left concat]. rewrite fold_left_app. apply IH.
Qed.

Section Settled.

Variable all : list (text * text).
Hypothesis all_settled : settled all = true.

Lemma settled_entry (e : text * text) :
  In e all ->
  fst e <> [] /\ existsb (Ascii.eqb "$") (snd e) = false.
Proof.
  intros Hin. unfold settled in all_settled.
  apply andb_true_iff in all_settled as (H & _).
  rewrite forallb_forall in H. specialize (H e Hin).
  apply andb_true_iff in H as (H1 & H2).
  apply negb_true_iff in H1, H2. split; [|exact H2].
  intros E. unfold text_eqb in H1. rewrite E in H1.
  rewrite bool_decide_eq_false in H1. apply H1. reflexivity.
Qed.

Lemma settled_pair (e e' : text * text) :
  In e all -> In e' all -> overlapFree (fst e) (snd e') = true.
Proof.
  intros Hin Hin'. unfold settled in all_settled.
  apply andb_true_iff in all_settled as (_ & H).
  rewrite forallb_forall in H. specialize (H e Hin).
  rewrite forallb_forall in H. exact (H e' Hin').
Qed.

(** Entry after entry, the old values already handled stay absent. *)
Lemma fold_clean (es : list (text * text)) :
  forall (done : list (text * text)) (t : text),
    incl es all -> incl done all ->
    (forall e, In e done -> includes (fst e) t = false) ->
    forall e, In e done \/ In e es ->
              includes (fst e) (fold_left replaceEntry es t) = false.
Proof.
  induction es as [ | e0 es IH]; intros done t Hes Hdone Hclean e He.
  - destruct He as [He | []]. simpl. auto.
  - cbn [fold_left].
    assert (Hin0 : In e0 all) by (apply Hes; left; reflexivity).
    destruct (settled_entry e0 Hin0) as (Hk0 & Hv0).
    apply (IH (e0 :: done)).
    + intros x Hx. apply Hes. right. exact Hx.
    + intros x [<- | Hx]; [exact Hin0 | apply Hdone; exact Hx].
    + intros x Hx. rewrite replaceEntry_replaced.
      assert (Hinx : In x all)
        by (destruct Hx as [<- | Hx]; [exact Hin0 | apply Hdone; exact Hx]).
      apply replaced_clean with (n := length t);
        [exact Hk0 | exact Hv0 | apply settled_entry; exact Hinx
        | apply settled_pair; assumption | lia | ].
      destruct Hx as [<- | Hx]; [left; reflexivity | right; auto].
    + destruct He as [He | [<- | He]]; simpl; auto.
Qed.

(** A text that holds none of the old values goes through unchanged. *)
Lemma fold_fixed (es : list (text * text)) (t : text) :
  incl es all ->
  (forall e, In e es -> includes (fst e) t = false) ->
  fold_left replaceEntry es t = t.
Proof.
  induction es as [ | e0 es IH]; intros Hes Hclean; [reflexivity|].
  cbn [fold_left].
  destruct (settled_entry e0 (Hes e0 (or_introl eq_refl))) as (Hk0 & Hv0).
  rewrite replaceEntry_replaced, replaced_absent;
    [ | exact Hk0 | apply Hclean; left; reflexivity ].
  apply IH.
  - intros x Hx. apply Hes. right. exact Hx.
  - intros x Hx. apply Hclean. right. exact Hx.
Qed.

Lemma fold_idempotent (t : text) :
  fold_left replaceEntry all (fold_left replaceEntry all t)
  = fold_left replaceEntry all t.
Proof.
  apply fold_fixed; [apply incl_refl|].
  intros e He.
  apply (fold_clean all [] t); auto using incl_refl.
  - intros x [].
  - intros x [].
Qed.

End Settled.

Lemma allMappings_settled : settled (concat allMappings) = true.
Proof. vm_compute. reflexivity. Qed.

(** C3: rewriting the output of [applyTokenReplacements] once more
    changes nothing, for every input text. *)
Theorem applyTokenReplacements_idempotent (content : text) :
  applyTokenReplacements (applyTokenReplacements content)
  = applyTokenReplacements content.
Proof.
  unfold applyTokenReplacements. rewrite !applyMappings_concat.
  apply fold_idempotent. exact allMappings_settled.
Qed.

End ApplyTokensFacts.

(** * Further properties *)

(** ** Theme selection, continued *)

Section ThemeMoreFacts.

Import Theme.
Local Open Scope string_scope.

(** X1: in a browser whose storage can be written and read, a theme name
    of the enumerated set that is given to [setTheme] is the one
    [getSavedTheme] returns afterwards. *)
Theorem setTheme_getSavedTheme_roundtrip (name : string) (env : Env)
  (doc : Document) :
  document env = Some doc ->
  setItem_throws (localStorage env) = false ->
  getItem_throws (localStorage env) = false ->
  In name ThemeName ->
  bind (setTheme name env) getSavedTheme = Return (Some name).
Proof.
  intros Hdoc Hset Hget Hin.
  unfold setTheme, setItem. rewrite Hdoc, Hset. simpl.
  unfold getSavedTheme, getItem. simpl. rewrite Hget. simpl.
  rewrite lookup_insert_eq. simpl.
  apply isThemeName_spec in Hin. rewrite Hin. reflexivity.
Qed.

Lemma setTheme_getSavedTheme_roundtrip_witness :
  bind (setTheme "theme-4" browserEnv) getSavedTheme = Return (Some "theme-4").
Proof.
  apply (setTheme_getSavedTheme_roundtrip "theme-4" browserEnv
           {| dataset_theme := Some "theme-1" |});
    [reflexivity | reflexivity | reflexivity | ].
  unfold ThemeName. simpl. auto 10.
Defined.


(** X3: the value the theme switcher starts from is always one of its
    own options: the saved theme when there is a valid one, and
    [current] when the store holds nothing, holds something else, or
    cannot be read. *)
Theorem ThemeSwitcher_saved_is_option (env : Env) :
  exists t : string,
    ThemeSwitcher.saved env = Return t
    /\ In t ThemeSwitcher.themes
    /\ (getSavedTheme env = Return None -> t = "current")
    /\ (forall v, getSavedTheme env = Return (Some v) -> t = v).
Proof.
  unfold ThemeSwitcher.saved, getSavedTheme, getItem.
  destruct (getItem_throws (localStorage env)); simpl.
  - exists "current". split; [reflexivity|].
    split; [simpl; auto|]. split; [reflexivity | discriminate].
  - destruct (items (localStorage env) !! "theme") as [w|]; simpl.
    + destruct (String.eqb w "current" || String.eqb w "theme-1"
                || String.eqb w "theme-2" || String.eqb w "theme-3"
                || String.eqb w "theme-4" || String.eqb w "theme-5")
        eqn:Hmem; simpl.
      * apply isThemeName_spec in Hmem.
        assert (Hne : String.eqb w "" = false).
        { unfold ThemeName in Hmem. simpl in Hmem.
          repeat (destruct Hmem as [<- | Hmem]; [reflexivity|]).
          contradiction. }
        rewrite Hne. exists w. split; [reflexivity|].
        split; [exact Hmem|]. split; [discriminate|].
        intros v [= <-]. reflexivity.
      * exists "current". split; [reflexivity|].
        split; [simpl; auto|]. split; [reflexivity | discriminate].
    + exists "current". split; [reflexivity|].
      split; [simpl; auto|]. split; [reflexivity | discriminate].
Qed.

End ThemeMoreFacts.

(** ** Replacing the first match *)

Section ReplaceFirstFacts.

(** A pattern under the [i] flag matches exactly where the text starts
    with it up to letter case, and consumes that many code units. *)
Lemma exec_at_StrI (k : text) :
  forall (K : MState -> option MState) (s : MState),
    exec_at (StrI k) K s
    = if startsWithI k (after s)
      then K {| before := rev (firstn (length k) (after s)) ++ before s;
                after := skipn (length k) (after s);
                groups := groups s |}
      else None.
Proof.
  induction k as [ | a k IH]; intros K s; simpl.
  - destruct s; reflexivity.
  - destruct (after s) as [ | c rest] eqn:Haft; [reflexivity|].
    destruct (Ascii.eqb (toUpper c) (toUpper a)) eqn:Hac; simpl; [|reflexivity].
    rewrite IH. unfold advance; simpl.
    rewrite <- app_assoc. reflexivity.
Qed.

Lemma startsWithI_upper (k s : text) :
  startsWithI k s = true ->
  map toUpper (firstn (length k) s) = map toUpper k.
Proof.
  revert s. induction k as [ | a k IH]; intros s H; [reflexivity|].
  destruct s as [ | c s]; [discriminate|].
  simpl in H. apply andb_true_iff in H as (Hc & H).
  apply Ascii.eqb_eq in Hc. simpl. rewrite Hc, IH by exact H. reflexivity.
Qed.

(** The leftmost match splits the text, and only the matched part is
    replaced; without a match the text is returned as it is. *)
Lemma replaceFirstFrom_spec (r : regex) (f : Match -> text) (aft : text) :
  forall bef : text,
    match execFrom r bef aft with
    | Some m =>
        exists (pre post : text) (e : MState),
          aft = pre ++ matched m ++ post
          /\ index m = length bef + length pre
          /\ exec_at r Some (mkState (rev pre ++ bef) (matched m ++ post) [])
             = Some e
          /\ m = matchFrom (rev pre ++ bef) e
          /\ replaceFirstFrom r f bef aft = pre ++ f m ++ post
    | None => replaceFirstFrom r f bef aft = aft
    end.
Proof.
  induction aft as [ | c rest IH]; intros bef.
  - cbn [execFrom replaceFirstFrom].
    destruct (exec_at r Some _) as [e|] eqn:He; [|reflexivity].
    pose proof (exec_at_matched _ _ _ _ He) as Hm.
    exists [], (after e), e. cbn [app length rev].
    split; [exact Hm|]. split; [simpl; lia|].
    split; [rewrite <- Hm; exact He|]. split; [reflexivity|].
    symmetry in Hm. apply app_eq_nil in Hm as (_ & Hm2).
    rewrite Hm2, skipn_nil. reflexivity.
  - cbn [execFrom replaceFirstFrom].
    destruct (exec_at r Some _) as [e|] eqn:He.
    + pose proof (exec_at_matched _ _ _ _ He) as Hm.
      exists [], (after e), e. cbn [app length rev].
      split; [exact Hm|]. split; [simpl; lia|].
      split; [rewrite <- Hm; exact He|]. split; [reflexivity|].
      rewrite Hm at 1. rewrite skipn_app, skipn_all, Nat.sub_diag.
      reflexivity.
    + specialize (IH (c :: bef)).
      destruct (execFrom r (c :: bef) rest) as [m|].
      * destruct IH as (pre & post & e & Hsplit & Hidx & Hex & Hm & Hrep).
        exists (c :: pre), post, e. cbn [app length rev].
        rewrite <- app_assoc.
        split; [rewrite Hsplit; reflexivity|].
        split; [simpl in Hidx; lia|].
        split; [exact Hex|]. split; [exact Hm|].
        rewrite Hrep. reflexivity.
      * rewrite IH. reflexivity.
Qed.

(** Without a match from the start on, no position of the text matches. *)
Lemma execFrom_None (r : regex) (aft : text) :
  forall bef : text,
    execFrom r bef aft = None ->
    forall pre post : text,
      aft = pre ++ post ->
      exec_at r Some (mkState (rev pre ++ bef) post []) = None.
Proof.
  induction aft as [ | c rest IH]; intros bef H pre post Hsplit;
    cbn [execFrom] in H;
    destruct (exec_at r Some (mkState bef _ [])) eqn:He; try discriminate.
  - destruct pre; [|discriminate]. simpl in Hsplit. subst post. exact He.
  - destruct pre as [ | c' pre]; simpl in Hsplit.
    + subst post. exact He.
    + injection Hsplit as <- Hsplit. cbn [rev]. rewrite <- app_assoc.
      apply (IH (c :: bef) H pre post Hsplit).
Qed.

End ReplaceFirstFacts.

(** ** Token rewriting, continued *)

Section ApplyTokensMoreFacts.

Import ApplyTokens.

Lemma applyTokenReplacements_clean (content : text) (e : text * text) :
  In e (concat allMappings) ->
  includes (fst e) (applyTokenReplacements content) = false.
Proof.
  intros He. unfold applyTokenReplacements. rewrite applyMappings_concat.
  apply (fold_clean (concat allMappings) allMappings_settled
           (concat allMappings) [] content).
  - apply incl_refl.
  - intros x [].
  - intros x [].
  - right. exact He.
Qed.

(** X4: after [applyTokenReplacements] none of the old values of the
    twelve mappings occurs in the text any more, and the texts it leaves
    unchanged are exactly the texts in which no old value occurs. *)
Theorem applyTokenReplacements_old_values (content : text) :
  Forall (fun e => includes (fst e) (applyTokenReplacements content) = false)
    (concat allMappings)
  /\ (applyTokenReplacements content = content
      <-> Forall (fun e => includes (fst e) content = false)
            (concat allMappings)).
Proof.
  assert (Hclean : Forall (fun e => includes (fst e)
                                      (applyTokenReplacements content) = false)
                     (concat allMappings)).
  { apply List.Forall_forall. intros e He.
    apply applyTokenReplacements_clean. exact He. }
  split; [exact Hclean|]. split.
  - intros Hfix. rewrite <- Hfix. exact Hclean.
  - intros Habsent. rewrite List.Forall_forall in Habsent.
    unfold applyTokenReplacements. rewrite applyMappings_concat.
    apply (fold_fixed (concat allMappings) allMappings_settled).
    + apply incl_refl.
    + exact Habsent.
Qed.

Lemma matched_StrI (k bef aft : text) (e : MState) :
  exec_at (StrI k) Some (mkState bef aft []) = Some e ->
  startsWithI k aft = true
  /\ map toUpper (matched (matchFrom bef e)) = map toUpper k.
Proof.
  intros He. pose proof (exec_at_matched _ _ _ _ He) as Hm.
  rewrite exec_at_StrI in He. cbn [after before groups] in He.
  destruct (startsWithI k aft) eqn:Hs; [|discriminate].
  injection He as <-. split; [reflexivity|].
  cbn [after] in Hm.
  rewrite <- (firstn_skipn (length k) aft) in Hm at 1.
  apply app_inv_tail in Hm. rewrite <- Hm.
  apply startsWithI_upper. exact Hs.
Qed.

(** The two ways [addTokenImport] treats a text without [tokens.css]. *)
Lemma addTokenImport_cases (content : text) :
  includes (txt "tokens.css") content = false ->
  match execFrom styleTagRegex [] content with
  | Some m =>
      exists pre post : text,
        content = pre ++ matched m ++ post
        /\ map toUpper (matched m) = txt "<STYLE>"
        /\ addTokenImport content
           = pre ++ tokenImport ++ txt "  <style>" ++ post
  | None =>
      (forall pre post : text,
         content = pre ++ post -> startsWithI (txt "<style>") post = false)
      /\ addTokenImport content = content
  end.
Proof.
  intros Hinc. unfold addTokenImport. rewrite Hinc.
  pose proof (replaceFirstFrom_spec styleTagRegex
                (fun m => getSubstitution m (tokenImport ++ txt "  <style>"))
                content []) as Hspec.
  unfold replaceFirst.
  destruct (execFrom styleTagRegex [] content) as [m|] eqn:Hexec.
  - destruct Hspec as (pre & post & e & Hsplit & _ & Hex & Hm & Hrep).
    exists pre, post.
    split; [exact Hsplit|].
    apply matched_StrI in Hex as (_ & Hup). rewrite <- Hm in Hup.
    split; [exact Hup|].
    rewrite Hrep, getSubstitution_plain by (vm_compute; reflexivity).
    rewrite <- app_assoc. reflexivity.
  - split; [|reflexivity].
    intros pre post Hsplit.
    pose proof (execFrom_None _ _ _ Hexec pre post Hsplit) as Hnone.
    unfold styleTagRegex in Hnone. rewrite exec_at_StrI in Hnone.
    cbn [after] in Hnone.
    destruct (startsWithI (txt "<style>") post); [discriminate | reflexivity].
Qed.



Lemma includes_tokenImport (pre post : text) :
  includes (txt "tokens.css")
    (pre ++ tokenImport ++ txt "  <style>" ++ post) = true.
Proof.
  apply includes_spec.
  exists (pre ++ q "  <link rel=`stylesheet` href=`src/design-system/tokens/"),
         (q "`>" ++ [nl] ++ txt "  <style>" ++ post).
  change tokenImport
    with (q "  <link rel=`stylesheet` href=`src/design-system/tokens/"
            ++ txt "tokens.css" ++ q "`>" ++ [nl]).
  rewrite <- !app_assoc. reflexivity.
Qed.

Lemma addTokenImport_twice (content : text) :
  addTokenImport (addTokenImport content) = addTokenImport content.
Proof.
  destruct (includes (txt "tokens.css") content) eqn:Hinc.
  - unfold addTokenImport at 2. rewrite Hinc.
    unfold addTokenImport. rewrite Hinc. reflexivity.
  - pose proof (addTokenImport_cases content Hinc) as H.
    destruct (execFrom styleTagRegex [] content) as [m|].
    + destruct H as (pre & post & _ & _ & H). rewrite H.
      unfold addTokenImport. rewrite includes_tokenImport. reflexivity.
    + destruct H as (_ & H). rewrite H. exact H.
Qed.

(** Replacing a stretch of a text by an insertion that no [k] can overlap
    does not bring [k] into the text. *)
Lemma includes_after_insertion (k ins pre tag post : text) :
  overlapFree k ins = true ->
  includes k (pre ++ tag ++ post) = false ->
  includes k (pre ++ ins ++ post) = false.
Proof.
  intros Hov H. apply andb_true_iff in Hov as (Hap1 & Hap2).
  assert (Hpost : includes k post = false).
  { apply includes_suffix_false in H. apply includes_suffix_false in H.
    exact H. }
  induction pre as [ | c pre IH].
  - cbn [app]. apply (includes_after_inserted k ins post Hap2 Hpost [] ins).
    reflexivity.
  - cbn [app includes] in H |- *.
    apply orb_false_iff in H as (Hs & H).
    apply orb_false_iff. split; [|apply IH; exact H].
    change (c :: pre ++ ins ++ post) with ((c :: pre) ++ ins ++ post).
    apply startsWith_seam; [exact Hap1|].
    change (c :: pre ++ tag ++ post) with ((c :: pre) ++ tag ++ post) in Hs.
    eapply startsWith_prefix_false. exact Hs.
Qed.

Lemma tokenImport_overlapFree :
  forallb (fun e => overlapFree (fst e) (tokenImport ++ txt "  <style>"))
    (concat allMappings) = true.
Proof. vm_compute. reflexivity. Qed.

(** The import does not bring an old value back. *)
Lemma applyTokenReplacements_addTokenImport (content : text) :
  applyTokenReplacements (addTokenImport (applyTokenReplacements content))
  = addTokenImport (applyTokenReplacements content).
Proof.
  set (t := applyTokenReplacements content).
  assert (Hclean : forall e, In e (concat allMappings) ->
                             includes (fst e) t = false)
    by (intros e He; apply applyTokenReplacements_clean; exact He).
  unfold applyTokenReplacements at 1. rewrite applyMappings_concat.
  apply (fold_fixed (concat allMappings) allMappings_settled);
    [apply incl_refl|].
  intros e He.
  destruct (includes (txt "tokens.css") t) eqn:Hinc.
  - unfold addTokenImport. rewrite Hinc. apply Hclean. exact He.
  - pose proof (addTokenImport_cases t Hinc) as H.
    destruct (execFrom styleTagRegex [] t) as [m|].
    + destruct H as (pre & post & Hsplit & _ & H). rewrite H.
      rewrite (app_assoc tokenImport).
      apply includes_after_insertion with (tag := matched m).
      * pose proof tokenImport_overlapFree as Hall.
        rewrite forallb_forall in Hall. apply Hall. exact He.
      * rewrite <- Hsplit. apply Hclean. exact He.
    + destruct H as (_ & H). rewrite H. apply Hclean. exact He.
Qed.

Lemma migrate_twice (content : text) :
  migrate (migrate content) = migrate content.
Proof.
  unfold migrate. rewrite applyTokenReplacements_addTokenImport.
  apply addTokenImport_twice.
Qed.

(** X6: running the migration of a page a second time changes nothing:
    the import is added at most once, and the text [processFile] writes
    is a fixed point of what it does to a text. *)
Theorem migrate_idempotent (content : text) :
  addTokenImport (addTokenImport content) = addTokenImport content
  /\ migrate (migrate content) = migrate content.
Proof.
  split; [apply addTokenImport_twice | apply migrate_twice].
Qed.

Section MainRun.

Variable denied : text -> option Exn.

Lemma text_eqb_eq (a b : text) : text_eqb a b = true <-> a = b.
Proof. unfold text_eqb. apply bool_decide_eq_true. Qed.

Lemma text_eqb_neq (a b : text) : text_eqb a b = false <-> a <> b.
Proof. unfold text_eqb. apply bool_decide_eq_false. Qed.

(** One file of the loop: either it is read and rewritten, or the state
    stays as it is and an error is printed. *)
Lemma processOrLog_cases (st : FileSystem * list (text * Exn)) (f : text) :
  (exists c : text,
     readFileSync (fst st) f = Return c
     /\ denied f = None
     /\ snd (processOrLog denied st f) = snd st
     /\ forall p : text,
          readFileSync (fst (processOrLog denied st f)) p
          = if text_eqb p f then Return (migrate c)
            else readFileSync (fst st) p)
  \/ ((exists e : Exn, readFileSync (fst st) f = Throw e \/ denied f = Some e)
      /\ fst (processOrLog denied st f) = fst st
      /\ exists e : Exn, snd (processOrLog denied st f) = snd st ++ [(f, e)]).
Proof.
  unfold processOrLog, processFile, writeFileSync.
  destruct (readFileSync (fst st) f) as [c | e] eqn:Hread; simpl.
  - destruct (denied f) as [e|] eqn:Hden; simpl.
    + right. split; [exists e; right; reflexivity|].
      split; [reflexivity | exists e; reflexivity].
    + left. exists c. repeat split.
  - right. split; [exists e; left; reflexivity|].
    split; [reflexivity | exists e; reflexivity].
Qed.

Lemma fold_untouched (l : list text) :
  forall (st : FileSystem * list (text * Exn)) (p : text),
    ~ In p l ->
    readFileSync (fst (fold_left (processOrLog denied) l st)) p
    = readFileSync (fst st) p.
Proof.
  induction l as [ | f l IH]; intros st p Hp; [reflexivity|].
  cbn [fold_left]. rewrite IH by (intros H; apply Hp; right; exact H).
  destruct (processOrLog_cases st f) as [(c & _ & _ & _ & Hr) | (_ & -> & _)];
    [|reflexivity].
  rewrite Hr.
  destruct (text_eqb p f) eqn:E; [|reflexivity].
  apply text_eqb_eq in E. subst. exfalso. apply Hp. left. reflexivity.
Qed.

Lemma fold_keeps_migrated (l : list text) :
  forall (st : FileSystem * list (text * Exn)) (f0 c : text),
    readFileSync (fst st) f0 = Return (migrate c) ->
    readFileSync (fst (fold_left (processOrLog denied) l st)) f0
    = Return (migrate c).
Proof.
  induction l as [ | f l IH]; intros st f0 c H; [exact H|].
  cbn [fold_left]. apply IH.
  destruct (processOrLog_cases st f)
    as [(c' & Hread & _ & _ & Hr) | (_ & -> & _)]; [|exact H].
  rewrite Hr. destruct (text_eqb f0 f) eqn:E; [|exact H].
  apply text_eqb_eq in E. subst f0.
  rewrite Hread in H. injection H as ->.
  rewrite migrate_twice. reflexivity.
Qed.

Lemma fold_migrates (l : list text) :
  forall (st : FileSystem * list (text * Exn)) (f0 c : text),
    In f0 l ->
    denied f0 = None ->
    readFileSync (fst st) f0 = Return c
    \/ readFileSync (fst st) f0 = Return (migrate c) ->
    readFileSync (fst (fold_left (processOrLog denied) l st)) f0
    = Return (migrate c).
Proof.
  induction l as [ | f l IH]; intros st f0 c Hin Hden H; [contradiction|].
  cbn [fold_left].
  destruct (list_eq_dec f f0) as [-> | Hne].
  - apply fold_keeps_migrated.
    destruct (processOrLog_cases st f0)
      as [(c' & Hread & _ & _ & Hr) | ((e & [Hthrow | Hd]) & _ & _)].
    + rewrite Hr.
      assert (E : text_eqb f0 f0 = true) by (apply text_eqb_eq; reflexivity).
      rewrite E.
      destruct H as [H | H]; rewrite Hread in H; injection H as ->;
        [reflexivity | rewrite migrate_twice; reflexivity].
    + destruct H as [H | H]; congruence.
    + congruence.
  - destruct Hin as [Hin | Hin]; [contradiction|].
    apply IH; [exact Hin | exact Hden |].
    destruct (processOrLog_cases st f)
      as [(c' & _ & _ & _ & Hr) | (_ & -> & _)]; [|exact H].
    rewrite !Hr.
    assert (E : text_eqb f0 f = false)
      by (apply text_eqb_neq; intros ->; apply Hne; reflexivity).
    rewrite E. exact H.
Qed.

Lemma fold_errors_kept (l : list text) :
  forall (st : FileSystem * list (text * Exn)) (x : text * Exn),
    In x (snd st) ->
    In x (snd (fold_left (processOrLog denied) l st)).
Proof.
  induction l as [ | f l IH]; intros st x Hx; [exact Hx|].
  cbn [fold_left]. apply IH.
  destruct (processOrLog_cases st f)
    as [(_ & _ & _ & -> & _) | (_ & _ & e & ->)]; [exact Hx|].
  apply in_or_app. left. exact Hx.
Qed.

Lemma fold_skips_failing (l : list text) :
  forall (st : FileSystem * list (text * Exn)) (f0 : text) (e : Exn),
    readFileSync (fst st) f0 = Throw e \/ denied f0 = Some e ->
    readFileSync (fst (fold_left (processOrLog denied) l st)) f0
    = readFileSync (fst st) f0
    /\ (In f0 l ->
        exists e' : Exn,
          In (f0, e') (snd (fold_left (processOrLog denied) l st))).
Proof.
  induction l as [ | f l IH]; intros st f0 e H.
  - split; [reflexivity | intros []].
  - cbn [fold_left].
    assert (Hsame : readFileSync (fst (processOrLog denied st f)) f0
                    = readFileSync (fst st) f0).
    { destruct (processOrLog_cases st f)
        as [(c' & Hread & Hden & _ & Hr) | (_ & -> & _)]; [|reflexivity].
      rewrite Hr. destruct (text_eqb f0 f) eqn:E; [|reflexivity].
      apply text_eqb_eq in E. subst f0.
      destruct H as [H | H]; congruence. }
    destruct (IH (processOrLog denied st f) f0 e) as (IH1 & IH2).
    { rewrite Hsame. exact H. }
    split; [rewrite IH1; exact Hsame|].
    intros [-> | Hin]; [|apply IH2; exact Hin].
    destruct (processOrLog_cases st f0)
      as [(c' & Hread & Hden & _ & _) | (_ & _ & e' & Herr)].
    + destruct H as [H | H]; congruence.
    + exists e'. apply fold_errors_kept. rewrite Herr.
      apply in_or_app. right. left. reflexivity.
Qed.

End MainRun.

(** X7: what a run of the migration script leaves on disk.  Files it was
    not given are untouched; every file it was given that can be read and
    written holds the migrated text of what it held before, also when it
    is listed more than once; a file that cannot be read or written is
    left as it was and an error is printed for it, without stopping the
    run. *)
Theorem ApplyTokens_main_effect (denied : text -> option Exn)
  (fs : FileSystem) (htmlFiles : list text) :
  let run := main denied fs htmlFiles in
  (forall p : text,
     ~ In p htmlFiles -> readFileSync (fst run) p = readFileSync fs p)
  /\ (forall f c : text,
        In f htmlFiles -> readFileSync fs f = Return c -> denied f = None ->
        readFileSync (fst run) f = Return (migrate c))
  /\ (forall (f : text) (e : Exn),
        In f htmlFiles ->
        readFileSync fs f = Throw e \/ denied f = Some e ->
        readFileSync (fst run) f = readFileSync fs f
        /\ exists e' : Exn, In (f, e') (snd run)).
Proof.
  intros run.
  assert (Hrun : run = fold_left (processOrLog denied) htmlFiles (fs, []))
    by (unfold run, main; destruct htmlFiles; reflexivity).
  rewrite Hrun. split; [|split].
  - intros p Hp. apply (fold_untouched denied htmlFiles (fs, []) p Hp).
  - intros f c Hin Hread Hden.
    apply (fold_migrates denied htmlFiles (fs, []) f c Hin Hden).
    left. exact Hread.
  - intros f e Hin H.
    destruct (fold_skips_failing denied htmlFiles (fs, []) f e H) as (H1 & H2).
    split; [exact H1 | apply H2; exact Hin].
Qed.

End ApplyTokensMoreFacts.

(** ** Token audit, continued *)

Section VerifyMoreFacts.

Import VerifyDesignTokens.

Lemma existsb_text_eqb (x : text) (l : list text) :
  existsb (text_eqb x) l = true <-> In x l.
Proof.
  rewrite existsb_exists. unfold text_eqb. split.
  - intros (y & Hy & E). apply bool_decide_eq_true in E as ->. exact Hy.
  - intros Hx. exists x. split; [exact Hx|].
    apply bool_decide_eq_true. reflexivity.
Qed.

(** [dedupe] keeps the first occurrence of each element not seen yet. *)
Lemma dedupe_spec (l : list text) :
  forall seen : list text,
    List.NoDup (dedupe seen l)
    /\ forall x : text, In x (dedupe seen l) <-> In x l /\ ~ In x seen.
Proof.
  induction l as [ | a l IH]; intros seen; cbn [dedupe].
  - split; [constructor|]. intros x. simpl. tauto.
  - destruct (existsb (text_eqb a) seen) eqn:Ha.
    + apply existsb_text_eqb in Ha.
      destruct (IH seen) as (Hnd & Hin). split; [exact Hnd|].
      intros x. rewrite Hin. simpl. split; [tauto|].
      intros ([<- | Hx] & Hs); [contradiction | tauto].
    + assert (Hna : ~ In a seen).
      { intros H. apply existsb_text_eqb in H. congruence. }
      destruct (IH (a :: seen)) as (Hnd & Hin). split.
      * constructor; [|exact Hnd]. rewrite Hin. simpl. tauto.
      * intros x. simpl. rewrite Hin. simpl. split.
        -- intros [<- | (Hx & Hs)]; tauto.
        -- intros ([<- | Hx] & Hs); [tauto|].
           destruct (list_eq_dec a x) as [-> | Hne]; [tauto|]. tauto.
Qed.



Lemma includes_trans (a b c : text) :
  includes a b = true -> includes b c = true -> includes a c = true.
Proof.
  rewrite !includes_spec.
  intros (p1 & q1 & ->) (p2 & q2 & ->).
  exists (p2 ++ p1), (q1 ++ q2). rewrite <- !app_assoc. reflexivity.
Qed.

Lemma trimStart_suffix (s : text) : exists p : text, s = p ++ trimStart s.
Proof.
  induction s as [ | c s (p & IH)]; [exists []; reflexivity|].
  simpl. destruct (isSpace c).
  - exists (c :: p). simpl. rewrite <- IH. reflexivity.
  - exists []. reflexivity.
Qed.

(** [trim] returns a stretch of its argument. *)
Lemma includes_trim (s : text) : includes (trim s) s = true.
Proof.
  apply includes_spec. unfold trim.
  destruct (trimStart_suffix s) as (p1 & H1).
  destruct (trimStart_suffix (rev (trimStart s))) as (p2 & H2).
  exists p1, (rev p2).
  rewrite <- rev_app_distr, <- H2, rev_involutive. exact H1.
Qed.

(** A match of a global scan is a stretch of the text. *)
Lemma includes_matched (r : regex) (content : text) (m : Match) :
  In m (matchAll r content) -> includes (matched m) content = true.
Proof.
  intros Hin. apply scan_occurrence in Hin as (post & Hpost).
  simpl in Hpost. apply includes_spec.
  exists (firstn (index m) content), post.
  rewrite <- Hpost. symmetry. apply firstn_skipn.
Qed.

Lemma in_forEachIndexed {A B : Type} (f : A -> nat -> list B) (l : list A) :
  forall (i : nat) (b : B),
    In b (forEachIndexed f l i) -> exists a j, In a l /\ In b (f a j).
Proof.
  induction l as [ | a l IH]; intros i b Hb; simpl in Hb; [contradiction|].
  apply in_app_or in Hb as [Hb | Hb].
  - exists a, i. split; [left; reflexivity | exact Hb].
  - apply IH in Hb as (a' & j & Ha' & Hb). exists a', j.
    split; [right; exact Ha' | exact Hb].
Qed.

(** X9: the two token scripts agree.  In a text that went through
    [applyTokenReplacements], no value reported by [findHardcodedValues]
    contains an old value of the mappings: what the migration knows how
    to replace is never left for the audit to find. *)
Theorem findHardcodedValues_after_migration (content filePath : text) :
  Forall (fun issue =>
            Forall (fun e => includes (fst e) (h_value issue) = false)
              (concat ApplyTokens.allMappings))
    (findHardcodedValues (ApplyTokens.applyTokenReplacements content) filePath).
Proof.
  apply List.Forall_forall. intros issue Hissue.
  apply List.Forall_forall. intros e He.
  unfold findHardcodedValues in Hissue.
  apply in_forEachIndexed in Hissue as (p & j & _ & Hissue).
  apply hardcodedOfPattern_reports in Hissue as (m & Hm & _ & ->).
  cbn [h_value].
  destruct (includes (fst e) (trim (matched m))) eqn:Hinc; [|reflexivity].
  pose proof (applyTokenReplacements_clean content e He) as Hclean.
  rewrite <- Hclean. symmetry.
  eapply includes_trans; [exact Hinc|].
  eapply includes_trans; [apply includes_trim|].
  eapply includes_matched. exact Hm.
Qed.

End VerifyMoreFacts.

(** ** Link audit, continued *)

Section CheckLinksMoreFacts.

Import CheckLinks.

Lemma linkOfMatch_kept (content sourceFile : text) (m : Match) (l : Link) :
  linkOfMatch content sourceFile m = Some l ->
  skippedTarget (href l) = false
  /\ source l = sourceFile
  /\ href l = group 1 m
  /\ line l = lineAt content (index m).
Proof.
  unfold linkOfMatch, skippedTarget. intros H.
  destruct (startsWith (txt "http") (group 1 m)
            || startsWith (txt "mailto:") (group 1 m)
            || startsWith (txt "tel:") (group 1 m)) eqn:Hext; [discriminate|].
  destruct (startsWith (txt "#") (group 1 m)) eqn:Hfrag; [discriminate|].
  injection H as <-. cbn [href source line].
  rewrite Hext, Hfrag. repeat split.
Qed.

Lemma in_extractLinks (content sourceFile : text) (l : Link) :
  In l (extractLinks content sourceFile) ->
  exists m : Match,
    In m (matchAll linkRegex content)
    /\ linkOfMatch content sourceFile m = Some l.
Proof.
  unfold extractLinks, extractLinksIndexed. intros H.
  apply List.in_map_iff in H as ([i l'] & <- & H).
  apply in_flat_map in H as (m & Hm & H).
  destruct (linkOfMatch content sourceFile m) as [l''|] eqn:Hl; [|contradiction].
  destruct H as [[= <- <-] | []]. exists m. split; [exact Hm | exact Hl].
Qed.

(** X10: [extractLinks] never returns a link to an external scheme or to
    a same-page fragment, and every link it returns is attributed to the
    page it was called for. *)
Theorem extractLinks_internal_only (content sourceFile : text) :
  Forall (fun l => skippedTarget (href l) = false /\ source l = sourceFile)
    (extractLinks content sourceFile).
Proof.
  apply List.Forall_forall. intros l Hl.
  apply in_extractLinks in Hl as (m & _ & Hl).
  apply linkOfMatch_kept in Hl as (H1 & H2 & _). split; assumption.
Qed.

(** X11: for a page with an entry in the map, [validateAgainstMap] has
    nothing to report exactly when every path of that entry is the target
    of some link of the page. *)
Theorem validateAgainstMap_complete_iff (interlinkingMap : InterlinkingMap)
  (links : list Link) (sourceFile : text) (expectedLinks : LinkPattern) :
  find (fun p => text_eqb (from p) sourceFile) (patterns interlinkingMap)
  = Some expectedLinks ->
  validateAgainstMap (Some interlinkingMap) links sourceFile = []
  <-> forall (link : LinkSpec) (expectedPath : text),
        In link (to expectedLinks) ->
        path link = Some expectedPath ->
        expectedPath <> [] ->
        In expectedPath (map href links).
Proof.
  intros Hfind. split.
  - intros Hnone link expectedPath Hlink Hpath Hne.
    destruct (existsb (text_eqb expectedPath) (map href links)) eqn:Hex;
      [apply existsb_text_eqb; exact Hex|].
    exfalso.
    assert (Hin : In {| i_type := txt "missing_expected_link";
                        i_source := sourceFile;
                        i_expected := expectedPath;
                        i_message := txt "Missing expected link to "
                                       ++ expectedPath |}
                    (validateAgainstMap (Some interlinkingMap) links sourceFile)).
    { apply (validateAgainstMap_reports _ _ _ _ _ Hfind).
      exists link, expectedPath. repeat split; try assumption.
      intros H. apply existsb_text_eqb in H. congruence. }
    rewrite Hnone in Hin. exact Hin.
  - intros Hall.
    destruct (validateAgainstMap (Some interlinkingMap) links sourceFile)
      as [ | issue rest] eqn:Hv; [reflexivity|].
    exfalso.
    assert (Hin : In issue (validateAgainstMap (Some interlinkingMap)
                              links sourceFile))
      by (rewrite Hv; left; reflexivity).
    apply (validateAgainstMap_reports _ _ _ _ _ Hfind) in Hin
      as (link & expectedPath & Hlink & Hpath & Hne & Hnot & _).
    apply Hnot. eapply Hall; eassumption.
Qed.


Lemma validateAgainstMap_complete_iff_witness :
  validateAgainstMap (Some sampleMap)
    (extractLinks (q "<a href=`quote.html`>Get Quote</a>") (txt "home.html"))
    (txt "home.html") = []
  <-> forall (link : LinkSpec) (expectedPath : text),
        In link (to {| from := txt "home.html";
                       to := [ {| path := Some (txt "quote.html");
                                  anchor := Some (txt "Get Quote");
                                  relate := None |} ] |}) ->
        path link = Some expectedPath ->
        expectedPath <> [] ->
        In expectedPath
          (map href (extractLinks (q "<a href=`quote.html`>Get Quote</a>")
                       (txt "home.html"))).
Proof.
  apply (validateAgainstMap_complete_iff sampleMap). reflexivity.
Defined.

(** X12: both link scripts look at the first entry of the map for a page
    only: entries declared for the same page further down are ignored by
    [validateAgainstMap] and by [getLinksForFile] alike. *)
Theorem first_entry_for_page_only (earlier later : list LinkPattern)
  (entry : LinkPattern) (links : list Link) (sourceFile : text) :
  Forall (fun p => from p <> sourceFile) earlier ->
  from entry = sourceFile ->
  validateAgainstMap
    (Some {| patterns := earlier ++ entry :: later |}) links sourceFile
  = validateAgainstMap (Some {| patterns := [entry] |}) links sourceFile
  /\ ApplyInterlinkingMap.getLinksForFile
       {| patterns := earlier ++ entry :: later |} sourceFile
     = to entry.
Proof.
  intros Hearlier Hentry.
  assert (Hfind : find (fun p => text_eqb (from p) sourceFile)
                    (earlier ++ entry :: later) = Some entry).
  { induction Hearlier as [ | p earlier Hp _ IH]; simpl.
    - apply text_eqb_eq in Hentry. rewrite Hentry. reflexivity.
    - apply text_eqb_neq in Hp. rewrite Hp. exact IH. }
  unfold validateAgainstMap, ApplyInterlinkingMap.getLinksForFile.
  cbn [patterns]. rewrite Hfind. cbn [find].
  apply text_eqb_eq in Hentry. rewrite Hentry. split; reflexivity.
Qed.

Lemma first_entry_for_page_only_witness :
  ApplyInterlinkingMap.getLinksForFile
    {| patterns := [] ++ {| from := txt "a.html"; to := [] |}
                      :: [ {| from := txt "a.html";
                              to := [ {| path := Some (txt "b.html");
                                         anchor := None;
                                         relate := None |} ] |} ] |}
    (txt "a.html") = [].
Proof.
  apply (first_entry_for_page_only [] _ {| from := txt "a.html"; to := [] |}
           [] (txt "a.html")); [constructor | reflexivity].
Defined.

Lemma sorted_kept {A B : Type} (key : A -> nat) (keyB : B -> nat)
  (keep : A -> bool) (mk : A -> B) (l : list A) :
  (forall a, keyB (mk a) = key a) ->
  StronglySorted le (map key l) ->
  StronglySorted le
    (map keyB (flat_map (fun a => if keep a then [mk a] else []) l)).
Proof.
  intros Hmk. induction l as [ | a l IH]; intros Hs; simpl; [constructor|].
  inversion Hs as [ | ? ? Hs' Ha]; subst.
  destruct (keep a); simpl; [|apply IH; exact Hs'].
  constructor; [apply IH; exact Hs'|].
  rewrite Hmk. apply List.Forall_forall. intros x Hx.
  apply List.in_map_iff in Hx as (b & <- & Hb).
  apply in_flat_map in Hb as (a' & Ha' & Hb).
  destruct (keep a'); [|contradiction]. destruct Hb as [<- | []].
  rewrite Hmk. rewrite List.Forall_forall in Ha. apply Ha.
  apply List.in_map_iff. exists a'. auto.
Qed.

Lemma extractLinks_lines_sorted (content sourceFile : text) :
  StronglySorted le (map line (extractLinks content sourceFile)).
Proof.
  pose proof (scan_sorted linkRegex content 0 []) as Hsorted.
  destruct (extractLinksIndexed_from_matches content sourceFile
              (matchAll linkRegex content) Hsorted) as (H1 & _ & H3).
  apply lines_sorted with (content := content); [exact H1|].
  eapply List.Forall_impl; [|exact H3]. simpl. intros il (Hl & _). exact Hl.
Qed.

(** X13: the broken links [analyzeFile] reports for a readable page are
    the links of the page whose target does not exist: they come in
    document order (their lines never decrease), none of them is external
    or a same-page fragment, and no link to a missing target is left
    out. *)
Theorem analyzeFile_broken_links (fs : FileSystem)
  (interlinkingMap : option InterlinkingMap) (filePath content : text) :
  readFileSync fs filePath = Return content ->
  exists r : FileResult,
    analyzeFile fs interlinkingMap filePath = Return r
    /\ links r = extractLinks content filePath
    /\ StronglySorted le (map b_line (broken r))
    /\ Forall (fun b => existsSync fs (b_href b) = false
                        /\ skippedTarget (b_href b) = false
                        /\ b_source b = filePath) (broken r)
    /\ (forall l : Link,
          In l (links r) -> existsSync fs (href l) = false ->
          exists b : BrokenLink,
            In b (broken r) /\ b_href b = href l /\ b_line b = line l).
Proof.
  intros Hread. unfold analyzeFile. rewrite Hread. cbn [bind].
  eexists. split; [reflexivity|]. cbn [links broken].
  split; [reflexivity|]. split; [|split].
  - apply (sorted_kept line b_line
             (fun link => negb (existsSync fs (href link)))
             (fun link => {| b_source := filePath;
                             b_href := href link;
                             b_text := text_ link;
                             b_line := line link;
                             b_message := txt "Broken link to " ++ href link |})).
    + reflexivity.
    + apply extractLinks_lines_sorted.
  - apply List.Forall_forall. intros b Hb.
    apply in_flat_map in Hb as (l & Hl & Hb).
    destruct (existsSync fs (href l)) eqn:Hex; simpl in Hb; [contradiction|].
    destruct Hb as [<- | []]. cbn [b_href b_source].
    split; [exact Hex|]. split; [|reflexivity].
    apply in_extractLinks in Hl as (m & _ & Hl).
    apply linkOfMatch_kept in Hl as (H1 & _). exact H1.
  - intros l Hl Hex. eexists. split.
    + apply in_flat_map. exists l. split; [exact Hl|].
      rewrite Hex. left. reflexivity.
    + split; reflexivity.
Qed.

Lemma analyzeFile_broken_links_witness :
  exists r : FileResult,
    analyzeFile brokenFs None (txt "b.html") = Return r
    /\ links r = extractLinks (txt "<p>ok</p>") (txt "b.html").
Proof.
  destruct (analyzeFile_broken_links brokenFs None (txt "b.html")
              (txt "<p>ok</p>") eq_refl) as (r & Hr & Hl & _).
  exists r. split; [exact Hr | exact Hl].
Defined.

End CheckLinksMoreFacts.

(** ** Link rewriting, continued *)

Section InterlinkingMoreFacts.

Import ApplyInterlinkingMap.

Lemma forEachJs_tagged (interlinkingMap : InterlinkingMap)
  (RegExp_gi : text -> Js regex) (ls : list LinkSpec) (content : text) :
  Forall (fun link => truthy (relate link) = true) ls ->
  forEachJs (updateLink RegExp_gi) ls content = Return content.
Proof.
  intros Hall. induction Hall as [ | link ls Hlink _ IH]; [reflexivity|].
  cbn [forEachJs]. unfold updateLink at 1. rewrite Hlink. exact IH.
Qed.

(** X14: entries tagged [relate] never rewrite anything.  When every
    entry of the map for a page is tagged, [updateLinksInContent] returns
    the text as it is, without compiling a single pattern: the result is
    the same whatever [new RegExp] would do, even throw. *)
Theorem updateLinksInContent_skips_tagged (interlinkingMap : InterlinkingMap)
  (RegExp_gi : text -> Js regex) (content sourceFile : text) :
  Forall (fun link => truthy (relate link) = true)
    (getLinksForFile interlinkingMap sourceFile) ->
  updateLinksInContent interlinkingMap RegExp_gi content sourceFile
  = Return content.
Proof.
  intros Hall. unfold updateLinksInContent.
  destruct (getLinksForFile interlinkingMap sourceFile) as [ | l ls] eqn:Hl;
    [reflexivity|].
  apply (forEachJs_tagged interlinkingMap). exact Hall.
Qed.

Lemma updateLinksInContent_skips_tagged_witness :
  updateLinksInContent taggedMap (fun _ => Throw SyntaxError)
    (txt "<p>Edmond movers</p>") (txt "home.html")
  = Return (txt "<p>Edmond movers</p>").
Proof.
  apply (updateLinksInContent_skips_tagged taggedMap).
  repeat constructor.
Defined.

Lemma in_allTargets (interlinkingMap : InterlinkingMap) (target : text) :
  In target (allTargets interlinkingMap)
  <-> exists (pattern : LinkPattern) (link : LinkSpec),
        In pattern (patterns interlinkingMap)
        /\ In link (to pattern)
        /\ path link = Some target
        /\ target <> []
        /\ truthy (relate link) = false.
Proof.
  unfold allTargets.
  destruct (dedupe_spec
              (flat_map
                 (fun pattern =>
                    flat_map (fun link =>
                                if truthy (path link)
                                   && negb (truthy (relate link))
                                then match path link with
                                     | Some p => [p]
                                     | None => []
                                     end
                                else [])
                      (to pattern))
                 (patterns interlinkingMap)) []) as (_ & Hin).
  rewrite Hin. split.
  - intros (H & _).
    apply in_flat_map in H as (pattern & Hp & H).
    apply in_flat_map in H as (link & Hl & H).
    destruct (path link) as [[ | c rest] | ] eqn:Hpath; simpl in H;
      try contradiction.
    destruct (truthy (relate link)) eqn:Hrel; simpl in H; [contradiction|].
    destruct H as [<- | []].
    exists pattern, link. repeat split; try assumption. discriminate.
  - intros (pattern & link & Hp & Hl & Hpath & Hne & Hrel).
    split; [|intros []].
    apply in_flat_map. exists pattern. split; [exact Hp|].
    apply in_flat_map. exists link. split; [exact Hl|].
    rewrite Hpath, Hrel. destruct target; [contradiction|]. simpl. auto.
Qed.

Lemma validateTargets_true (interlinkingMap : InterlinkingMap)
  (fs : FileSystem) :
  validateTargets interlinkingMap fs = true
  <-> forall target : text,
        In target (allTargets interlinkingMap) -> existsSync fs target = true.
Proof.
  unfold validateTargets, missingFiles. rewrite Nat.eqb_eq. split.
  - intros Hlen target Hin.
    destruct (existsSync fs target) eqn:Hex; [reflexivity|]. exfalso.
    assert (Hm : In target (List.filter (fun t => negb (existsSync fs t))
                              (allTargets interlinkingMap))).
    { apply filter_In. split; [exact Hin|]. rewrite Hex. reflexivity. }
    destruct (List.filter _ _); [exact Hm | discriminate].
  - intros Hall.
    destruct (List.filter _ _) as [ | t ts] eqn:Hf; [reflexivity|]. exfalso.
    assert (Hm : In t (List.filter (fun t => negb (existsSync fs t))
                         (allTargets interlinkingMap)))
      by (rewrite Hf; left; reflexivity).
    apply filter_In in Hm as (Hin & Hneg).
    rewrite (Hall t Hin) in Hneg. discriminate.
Qed.

(** X15: [validateTargets] succeeds exactly when the path of every entry
    without a [relate] tag exists; paths of tagged entries need not
    exist.  When it fails, [main] stops before the first file: the file
    system is the one it started with and nothing is counted as
    processed. *)
Theorem validateTargets_gate (interlinkingMap : InterlinkingMap)
  (RegExp_gi : text -> Js regex) (denied : text -> option Exn)
  (fs : FileSystem) (htmlFiles : list text) :
  (validateTargets interlinkingMap fs = true
   <-> forall (pattern : LinkPattern) (link : LinkSpec) (target : text),
         In pattern (patterns interlinkingMap) ->
         In link (to pattern) ->
         path link = Some target ->
         target <> [] ->
         truthy (relate link) = false ->
         existsSync fs target = true)
  /\ (validateTargets interlinkingMap fs = false ->
      main interlinkingMap RegExp_gi denied fs htmlFiles = (fs, 0)).
Proof.
  split.
  - rewrite validateTargets_true. split.
    + intros Hall pattern link target Hp Hl Hpath Hne Hrel.
      apply Hall. apply in_allTargets. exists pattern, link. auto.
    + intros Hall target Hin.
      apply in_allTargets in Hin
        as (pattern & link & Hp & Hl & Hpath & Hne & Hrel).
      eapply Hall; eassumption.
  - intros Hfail. unfold main. rewrite Hfail. reflexivity.
Qed.





(** X17: strategic links go to service-area pages only.  A page whose
    file name does not contain [service-area] is returned by
    [addStrategicLinks] as it is, whatever the map lists for it. *)
Theorem addStrategicLinks_other_pages (interlinkingMap : InterlinkingMap)
  (content sourceFile : text) :
  includes (txt "service-area") sourceFile = false ->
  addStrategicLinks interlinkingMap content sourceFile = content.
Proof.
  intros Hno. unfold addStrategicLinks.
  destruct (getLinksForFile interlinkingMap sourceFile); [reflexivity|].
  assert (H1 : includes (txt "service-area-") sourceFile = false).
  { destruct (includes (txt "service-area-") sourceFile) eqn:H; [|reflexivity].
    rewrite <- Hno. symmetry.
    eapply includes_trans; [|exact H]. vm_compute. reflexivity. }
  assert (H2 : text_eqb sourceFile (txt "service-areas.html") = false).
  { apply text_eqb_neq. intros ->. vm_compute in Hno. discriminate. }
  rewrite H1, H2. reflexivity.
Qed.

Lemma addStrategicLinks_other_pages_witness :
  addStrategicLinks sampleMap (txt "<footer>") (txt "home.html")
  = txt "<footer>".
Proof.
  apply (addStrategicLinks_other_pages sampleMap). vm_compute. reflexivity.
Defined.

End InterlinkingMoreFacts.

(** ** Literal audit *)

Section AuditTokensFacts.

Import AuditTokens.

Lemma auditLine_findings (f l : text) (i : nat) :
  Forall (fun r => file r = f /\ line r = i + 1
                   /\ includes (match_ r) l = true)
    (auditLine f l i).
Proof.
  apply List.Forall_forall. intros r Hr. unfold auditLine in Hr.
  apply in_flat_map in Hr as (pat & _ & Hr).
  apply List.in_map_iff in Hr as (m & <- & Hm). cbn.
  repeat split. eapply includes_matched. exact Hm.
Qed.

Lemma auditLines_spec (f : text) (ls : list text) :
  forall i : nat,
    let rs := VerifyDesignTokens.forEachIndexed (auditLine f) ls i in
    StronglySorted le (map line rs)
    /\ Forall (fun r =>
                 file r = f
                 /\ i + 1 <= line r <= i + length ls
                 /\ exists l : text,
                      nth_error ls (line r - 1 - i) = Some l
                      /\ includes (match_ r) l = true) rs.
Proof.
  induction ls as [ | l ls IH]; intros i; cbn zeta.
  - split; constructor.
  - cbn [VerifyDesignTokens.forEachIndexed].
    destruct (IH (S i)) as (IHs & IHf). cbn zeta in IHs, IHf.
    pose proof (auditLine_findings f l i) as Hl.
    rewrite List.Forall_forall in Hl, IHf.
    split.
    + rewrite map_app.
      apply StronglySorted_app_le with (i := i + 1).
      * assert (Hall : Forall (fun x => x = i + 1)
                         (map line (auditLine f l i))).
        { apply List.Forall_forall. intros x Hx.
          apply List.in_map_iff in Hx as (r & <- & Hr).
          apply Hl in Hr as (_ & Hr & _). exact Hr. }
        induction Hall as [ | a rest -> Hrest IHrest]; constructor;
          [exact IHrest|].
        eapply List.Forall_impl; [|exact Hrest]. simpl. intros x ->. lia.
      * exact IHs.
      * apply List.Forall_forall. intros x Hx.
        apply List.in_map_iff in Hx as (r & <- & Hr).
        apply Hl in Hr as (_ & Hr & _). lia.
      * apply List.Forall_forall. intros x Hx.
        apply List.in_map_iff in Hx as (r & <- & Hr).
        apply IHf in Hr as (_ & Hr & _). lia.
    + apply List.Forall_forall. intros r Hr.
      apply in_app_or in Hr as [Hr | Hr].
      * apply Hl in Hr as (Hf & Hline & Hinc).
        split; [exact Hf|]. split; [simpl; lia|].
        exists l. rewrite Hline.
        replace (i + 1 - 1 - i) with 0 by lia. split; [reflexivity | exact Hinc].
      * apply IHf in Hr as (Hf & Hline & l' & Hnth & Hinc).
        split; [exact Hf|]. split; [simpl; lia|].
        exists l'. replace (line r - 1 - i) with (S (line r - 1 - S i)) by lia.
        split; [exact Hnth | exact Hinc].
Qed.

Lemma length_splitAt (ms : list Match) :
  forall (pos : nat) (content : text),
    length (splitAt ms pos content) = S (length ms).
Proof.
  induction ms as [ | m ms IH]; intros pos content; [reflexivity|].
  cbn [splitAt length]. rewrite IH. reflexivity.
Qed.

Lemma exec_lineBreak (bef aft : text) :
  exec_at lineBreak Some (mkState bef aft [])
  = match aft with
    | c :: rest =>
        if Ascii.eqb cr c then
          match rest with
          | d :: rest' =>
              if Ascii.eqb nl d then Some (mkState (d :: c :: bef) rest' [])
              else None
          | [] => None
          end
        else if Ascii.eqb nl c then Some (mkState (c :: bef) rest [])
        else None
    | [] => None
    end.
Proof.
  unfold lineBreak, Opt, Lit. cbn [exec_at after].
  destruct aft as [ | c rest]; [reflexivity|].
  destruct (Ascii.eqb cr c) eqn:Hcr.
  - apply Ascii.eqb_eq in Hcr as <-. cbn [advance after before groups].
    destruct rest as [ | d rest']; [reflexivity|].
    destruct (Ascii.eqb nl d); reflexivity.
  - destruct (Ascii.eqb nl c); reflexivity.
Qed.

Lemma length_matched_one (bef : text) (c : ascii) (rest : text) :
  length (matched (matchFrom bef (mkState (c :: bef) rest []))) = 1.
Proof.
  unfold matchFrom. cbn [matched before length].
  replace (S (length bef) - length bef) with 1 by lia. reflexivity.
Qed.

Lemma length_matched_two (bef : text) (c d : ascii) (rest : text) :
  length (matched (matchFrom bef (mkState (d :: c :: bef) rest []))) = 2.
Proof.
  unfold matchFrom. cbn [matched before length].
  replace (S (S (length bef)) - length bef) with 2 by lia. reflexivity.
Qed.

(** A line break is found at every line feed, and nowhere else. *)
Lemma scan_lineBreak_count (n : nat) :
  forall aft bef : text,
    length aft <= n ->
    length (scan lineBreak 0 bef aft)
    = length (List.filter (Ascii.eqb nl) aft).
Proof.
  induction n as [ | n IH]; intros aft bef Hlen.
  - destruct aft; [|simpl in Hlen; lia].
    cbn [scan]. rewrite exec_lineBreak. reflexivity.
  - destruct aft as [ | c rest].
    + cbn [scan]. rewrite exec_lineBreak. reflexivity.
    + simpl in Hlen. cbn [scan]. rewrite exec_lineBreak.
      cbn [List.filter].
      destruct (Ascii.eqb cr c) eqn:Hcr.
      * apply Ascii.eqb_eq in Hcr as <-.
        change (Ascii.eqb nl cr) with false. cbn iota.
        destruct rest as [ | d rest'].
        -- cbn [scan]. rewrite exec_lineBreak. reflexivity.
        -- cbn [List.filter]. destruct (Ascii.eqb nl d) eqn:Hd.
           ++ cbn zeta. rewrite length_matched_two.
              cbn [Nat.sub scan length]. rewrite IH by (simpl in Hlen; lia).
              reflexivity.
           ++ rewrite IH by lia. cbn [List.filter]. rewrite Hd. reflexivity.
      * destruct (Ascii.eqb nl c) eqn:Hc.
        -- cbn zeta. rewrite length_matched_one.
           cbn [Nat.sub length]. rewrite IH by lia. reflexivity.
        -- apply IH. lia.
Qed.

(** X18: the findings of the literal audit for one file are in document
    order.  Their line numbers never decrease, each lies between 1 and
    the number of lines of the file, which is the line count the other
    scripts use, and each reported match is a stretch of the line it is
    reported on. *)
Theorem auditContent_document_order (f content : text) :
  let lines := split lineBreak content in
  length lines = lineCount content
  /\ StronglySorted le (map line (auditContent f content))
  /\ Forall (fun r =>
               file r = f
               /\ 1 <= line r <= lineCount content
               /\ exists l : text,
                    nth_error lines (line r - 1) = Some l
                    /\ includes (match_ r) l = true)
       (auditContent f content).
Proof.
  intros lines.
  assert (Hlen : length lines = lineCount content).
  { unfold lines, split, matchAll, lineCount. rewrite length_splitAt.
    rewrite (scan_lineBreak_count (length content)) by lia. reflexivity. }
  destruct (auditLines_spec f lines 0) as (Hs & Hf). cbn zeta in Hs, Hf.
  split; [exact Hlen|]. split; [exact Hs|].
  eapply List.Forall_impl; [|exact Hf]. cbn beta.
  intros r (Hfile & Hline & l & Hnth & Hinc).
  split; [exact Hfile|]. split; [lia|].
  exists l. rewrite Nat.sub_0_r in Hnth. split; [exact Hnth | exact Hinc].
Qed.

Lemma audit_readable (fs : FileSystem) (files : list text) :
  forall results : list Finding,
    Forall (fun p => exists c, readFileSync fs p = Return c) files ->
    exists found : list Finding,
      audit fs files results = Return (results ++ found)
      /\ (found = [] <->
          forall p c, In p files -> readFileSync fs p = Return c ->
                      auditContent p c = []).
Proof.
  induction files as [ | p files IH]; intros results Hall.
  - exists []. rewrite app_nil_r. split; [reflexivity|].
    split; [intros _ ? ? [] | reflexivity].
  - inversion Hall as [ | ? ? (c & Hc) Hrest]; subst.
    cbn [audit]. rewrite Hc. cbn [bind].
    destruct (IH (results ++ auditContent p c) Hrest) as (found & Hrun & Hiff).
    exists (auditContent p c ++ found).
    rewrite Hrun, <- app_assoc. split; [reflexivity|]. split.
    + intros E. apply app_eq_nil in E as (E1 & E2).
      intros p' c' [<- | Hin] Hread.
      * rewrite Hc in Hread. injection Hread as <-. exact E1.
      * apply (proj1 Hiff E2 p' c' Hin Hread).
    + intros Hnone.
      rewrite (Hnone p c (or_introl eq_refl) Hc). cbn [app].
      apply Hiff. intros p' c' Hin Hread.
      apply (Hnone p' c' (or_intror Hin) Hread).
Qed.

(** X19: the literal audit does not isolate failures.  When every listed
    file can be read it ends normally, with exit status 1 exactly when
    some file has a finding; but the first file that cannot be read ends
    the whole audit with its exception, whatever was found before. *)
Theorem audit_read_errors (fs : FileSystem) (ok rest : list text)
  (f : text) (e : Exn) :
  Forall (fun p => exists c, readFileSync fs p = Return c) ok ->
  (exists found : list Finding,
     audit fs ok [] = Return found
     /\ (exitCode found = 0 <->
         forall p c, In p ok -> readFileSync fs p = Return c ->
                     auditContent p c = []))
  /\ (readFileSync fs f = Throw e ->
      audit fs (ok ++ f :: rest) [] = Throw e).
Proof.
  intros Hok. split.
  - destruct (audit_readable fs ok [] Hok) as (found & Hrun & Hiff).
    exists found. split; [exact Hrun|].
    rewrite <- Hiff. unfold exitCode.
    destruct found; split; intros H; try reflexivity; discriminate.
  - intros Hf. generalize (@nil Finding) as results.
    induction Hok as [ | p ok (c & Hc) _ IH]; intros results.
    + cbn [app audit]. rewrite Hf. reflexivity.
    + cbn [app audit]. rewrite Hc. cbn [bind]. apply IH.
Qed.

Lemma audit_read_errors_witness :
  audit brokenFs ([txt "b.html"] ++ txt "a.html" :: []) []
  = Throw (ReadError (txt "a.html")).
Proof.
  apply (audit_read_errors brokenFs [txt "b.html"] [] (txt "a.html")
           (ReadError (txt "a.html"))).
  - constructor; [|constructor]. exists (txt "<p>ok</p>"). reflexivity.
  - reflexivity.
Defined.

End AuditTokensFacts.

(** ** Reported lines and declared tokens *)

Section VerifyLineFacts.

Import VerifyDesignTokens.




(** Every match of a scan is the result of a run of the matcher. *)
Lemma scan_exec (r : regex) (aft : text) :
  forall (skip : nat) (bef : text) (m : Match),
    In m (scan r skip bef aft) ->
    exists (bef' aft' : text) (e : MState),
      exec_at r Some (mkState bef' aft' []) = Some e
      /\ m = matchFrom bef' e.
Proof.
  induction aft as [ | c rest IH]; intros skip bef m Hin.
  - destruct skip as [ | n]; simpl in Hin; [|contradiction].
    destruct (exec_at r Some _) as [e|] eqn:He; [|contradiction].
    destruct Hin as [<- | []]. exists bef, [], e. auto.
  - destruct skip as [ | n]; simpl in Hin; [|eauto].
    destruct (exec_at r Some _) as [e|] eqn:He; [|eauto].
    destruct Hin as [<- | Hin]; [|eauto].
    exists bef, (c :: rest), e. auto.
Qed.

(** A match of a pattern that begins with a literal begins with it. *)
Lemma matched_Str_prefix (k : text) (rest : regex) (bef aft : text)
  (e : MState) :
  exec_at (Seq (Str k) rest) Some (mkState bef aft []) = Some e ->
  exists w : text, matched (matchFrom bef e) = k ++ w.
Proof.
  intros He. pose proof (exec_at_matched _ _ _ _ He) as Hm.
  cbn [exec_at] in He. rewrite exec_at_Str in He. cbn [after before groups] in He.
  destruct (startsWith k aft) eqn:Hk; [|discriminate].
  apply startsWith_spec in Hk as (aft2 & ->).
  apply exec_at_inv in He as (s' & [= ->] & (w & _ & Ha)).
  cbn [after] in Ha.
  rewrite skipn_app, skipn_all, Nat.sub_diag, skipn_O in Ha.
  cbn [app] in Ha.
  exists w. rewrite Ha, app_assoc in Hm.
  apply app_inv_tail in Hm. symmetry. exact Hm.
Qed.

(** Deleting the code units of a class. *)
Lemma replaceAll_Char_nil (p : ascii -> bool) (s : text) :
  replaceAll (Char p) [] s = List.filter (fun c => negb (p c)) s.
Proof.
  unfold replaceAll.
  enough (H : forall bef : text,
             replaceScan (Char p) (fun m => getSubstitution m []) 0 bef s
             = List.filter (fun c => negb (p c)) s) by apply H.
  induction s as [ | c rest IH]; intros bef; [reflexivity|].
  cbn [replaceScan exec_at after List.filter].
  destruct (p c) eqn:Hc; cbn [negb].
  - unfold advance. cbn [before after groups].
    rewrite length_matched_one. cbn [getSubstitution Nat.eqb Nat.sub app].
    apply IH.
  - rewrite IH. reflexivity.
Qed.

(** The names [findUnusedTokens] reads from the stylesheet keep their two
    leading hyphens. *)
Lemma availableToken_hyphens (tokensContent : text) (m : Match) :
  In m (matchAll tokenDecl tokensContent) ->
  startsWith (txt "--") (replaceAll colonOrSpace [] (matched m)) = true.
Proof.
  intros Hm. apply scan_exec in Hm as (bef & aft & e & He & ->).
  unfold tokenDecl in He. cbn [Seqs] in He.
  apply matched_Str_prefix in He as (w & ->).
  unfold colonOrSpace. rewrite replaceAll_Char_nil. reflexivity.
Qed.

(** X21: the stylesheet never clears a reference.  [findUnusedTokens]
    compares the referenced name, stripped of its two hyphens, with the
    declared names, which keep theirs; so every referenced token whose
    stripped name does not itself begin with two hyphens is reported as
    undefined, whatever [tokens.css] declares. *)
Theorem findUnusedTokens_ignores_declarations (fs : FileSystem)
  (content filePath : text) (m : Match) :
  In m (matchAll varRef content) ->
  startsWith (txt "--") (replaceAll varOpenOrClose [] (matched m)) = false ->
  In (replaceAll varOpenOrClose [] (matched m))
    (map u_token (findUnusedTokens fs content filePath)).
Proof.
  intros Hm Hplain. unfold findUnusedTokens.
  destruct (matchAll varRef content) as [ | m0 ms] eqn:Hms; [contradiction|].
  rewrite <- Hms in *.
  set (token := replaceAll varOpenOrClose [] (matched m)) in *.
  destruct (dedupe_spec (map (fun m => replaceAll varOpenOrClose []
                                         (matched m))
                           (matchAll varRef content)) []) as (_ & Hused).
  apply List.in_map_iff.
  exists {| u_type := txt "undefined_token";
            u_file := filePath;
            u_line := lineOfFirst content (txt "var(--" ++ token ++ txt ")");
            u_token := token |}.
  split; [reflexivity|].
  apply in_flat_map. exists token. split.
  - apply Hused. split; [|intros []].
    apply List.in_map_iff. exists m. split; [reflexivity | exact Hm].
  - assert (Hnot : existsb (text_eqb token)
                     match readFileSync fs tokensCssPath with
                     | Return tokensContent =>
                         map (fun m => replaceAll colonOrSpace [] (matched m))
                           (matchAll tokenDecl tokensContent)
                     | Throw _ => []
                     end = false).
    { destruct (existsb _ _) eqn:Hex; [|reflexivity].
      apply existsb_text_eqb in Hex.
      destruct (readFileSync fs tokensCssPath) as [tokensContent | ];
        [|contradiction].
      apply List.in_map_iff in Hex as (d & Hd & Hin).
      apply availableToken_hyphens in Hin. congruence. }
    rewrite Hnot. left. reflexivity.
Qed.

Lemma findUnusedTokens_ignores_declarations_witness :
  In (txt "space-sm")
    (map u_token
       (findUnusedTokens tokensFs (txt "p { margin: var(--space-sm); }")
          (txt "page.html"))).
Proof.
  apply (findUnusedTokens_ignores_declarations tokensFs
           (txt "p { margin: var(--space-sm); }") (txt "page.html")
           {| index := 12; matched := txt "var(--space-sm)"; caps := [] |}).
  - vm_compute. left. reflexivity.
  - vm_compute. reflexivity.
Defined.

End VerifyLineFacts.

(** ** What a match went through *)

Section SemFacts.

Lemma exec_at_Sem (r : regex) :
  forall (k : MState -> option MState) (s e : MState),
    exec_at r k s = Some e ->
    exists s' : MState, k s' = Some e /\ Sem r s s'.
Proof.
  induction r as [ | p | a IHa b IHb | a IHa b IHb | a IHa
                 | positive a IHa | positive p | n a IHa ];
    intros k s e H; simpl in H.
  - exists s. split; [exact H | reflexivity].
  - destruct (after s) as [ | c rest] eqn:Haft; [discriminate|].
    destruct (p c) eqn:Hc; [|discriminate].
    exists (advance c rest s). split; [exact H|].
    exists c, rest. auto.
  - apply IHa in H as (s1 & H1 & E1).
    apply IHb in H1 as (s2 & H2 & E2).
    exists s2. split; [exact H2|]. exists s1. auto.
  - destruct (exec_at a k s) as [e1|] eqn:Ha.
    + injection H as <-. apply IHa in Ha as (s1 & H1 & E1).
      exists s1. split; [exact H1 | left; exact E1].
    + apply IHb in H as (s1 & H1 & E1).
      exists s1. split; [exact H1 | right; exact E1].
  - remember (length (after s)) as fuel eqn:Hfuel. clear Hfuel.
    revert s H. induction fuel as [ | fuel IHfuel]; intros s H.
    + exists s. split; [exact H | apply rtc_refl].
    + match type of H with
      | match ?X with _ => _ end = _ => destruct X as [e1|] eqn:Hiter
      end.
      * injection H as <-.
        apply IHa in Hiter as (s1 & H1 & E1).
        destruct (length (after s1) <? length (after s)); [|discriminate].
        apply IHfuel in H1 as (s2 & H2 & E2).
        exists s2. split; [exact H2|].
        cbn [Sem] in E2 |- *. eapply rtc_l; eassumption.
      * exists s. split; [exact H | apply rtc_refl].
  - exists s. split; [|reflexivity].
    destruct (exec_at a Some s), positive; try discriminate; exact H.
  - exists s. split; [|reflexivity].
    destruct (Bool.eqb _ positive); [exact H | discriminate].
  - apply IHa in H as (s1 & H1 & E1).
    exists (capture n s s1). split; [exact H1|]. exists s1. auto.
Qed.

Lemma Sem_groups (r : regex) :
  captureFree r = true ->
  forall s s' : MState, Sem r s s' -> groups s' = groups s.
Proof.
  induction r as [ | p | a IHa b IHb | a IHa b IHb | a IHa
                 | positive a IHa | positive p | n a IHa ];
    intros Hfree s s' H; cbn [captureFree] in Hfree; cbn [Sem] in H.
  - subst. reflexivity.
  - destruct H as (c & rest & _ & _ & ->). reflexivity.
  - apply andb_true_iff in Hfree as (Ha & Hb).
    destruct H as (m & H1 & H2).
    rewrite (IHb Hb _ _ H2). apply (IHa Ha _ _ H1).
  - apply andb_true_iff in Hfree as (Ha & Hb).
    destruct H as [H | H]; [apply (IHa Ha _ _ H) | apply (IHb Hb _ _ H)].
  - induction H as [ | x y z Hxy _ IH]; [reflexivity|].
    rewrite IH. apply (IHa Hfree _ _ Hxy).
  - subst. reflexivity.
  - subst. reflexivity.
  - discriminate.
Qed.

(** What a repeated class consumed. *)
Lemma Sem_Star_Char (p : ascii -> bool) (s s' : MState) :
  Sem (Star (Char p)) s s' ->
  exists w : text,
    before s' = rev w ++ before s /\ Forall (fun c => p c = true) w.
Proof.
  cbn [Sem]. intros H.
  induction H as [x | x y z Hxy _ (w & Hb & Hw)].
  - exists []. split; [reflexivity | constructor].
  - destruct Hxy as (c & rest & _ & Hc & ->).
    exists (c :: w). split.
    + rewrite Hb. cbn [advance before rev]. rewrite <- app_assoc. reflexivity.
    + constructor; assumption.
Qed.

Lemma Sem_Plus_Char (p : ascii -> bool) (s s' : MState) :
  Sem (Plus (Char p)) s s' ->
  exists w : text,
    w <> []
    /\ before s' = rev w ++ before s /\ Forall (fun c => p c = true) w.
Proof.
  unfold Plus. intros (m & (c & rest & _ & Hc & ->) & H).
  apply Sem_Star_Char in H as (w & Hb & Hw).
  exists (c :: w). split; [discriminate|]. split.
  - rewrite Hb. cbn [advance before rev]. rewrite <- app_assoc. reflexivity.
  - constructor; assumption.
Qed.

Lemma captured_text (n : nat) (s m : MState) (w : text) :
  before m = rev w ++ before s ->
  groups (capture n s m) = (n, w) :: groups m.
Proof.
  intros Hb. unfold capture. cbn [groups]. rewrite Hb.
  rewrite length_app, length_rev.
  replace (length w + length (before s) - length (before s))
    with (length (rev w)) by (rewrite length_rev; lia).
  rewrite firstn_app, Nat.sub_diag, firstn_all. cbn [firstn].
  rewrite app_nil_r, rev_involutive. reflexivity.
Qed.

Lemma Forall_trimStart (P : ascii -> Prop) (s : text) :
  Forall P s -> Forall P (trimStart s).
Proof.
  intros H. induction H as [ | c s Hc Hs IH]; [constructor|].
  simpl. destruct (isSpace c); [exact IH | constructor; assumption].
Qed.

Lemma Forall_trim (P : ascii -> Prop) (s : text) :
  Forall P s -> Forall P (trim s).
Proof.
  intros H. unfold trim.
  apply List.Forall_rev, Forall_trimStart, List.Forall_rev, Forall_trimStart.
  exact H.
Qed.

End SemFacts.

Section LinkShapeFacts.

Import CheckLinks.

(** The two captures of a match of [linkRegex]. *)
Lemma linkRegex_groups (bef aft : text) (e : MState) :
  exec_at linkRegex Some (mkState bef aft []) = Some e ->
  exists target label : text,
    groups e = [(2, label); (1, target)]
    /\ target <> []
    /\ Forall (fun c => c <> dq /\ c <> "'"%char) target
    /\ Forall (fun c => c <> "<"%char) label.
Proof.
  intros He. apply exec_at_Sem in He as (s' & [= ->] & H).
  unfold linkRegex in H. cbn [Seqs] in H.
  destruct H as (s1 & H1 & s2 & H2 & s3 & H3 & s4 & H4 & s5 & H5 & s6 & H6
                 & s7 & H7 & s8 & H8 & s9 & H9 & s10 & H10 & ->).
  apply Sem_groups in H1; [|reflexivity].
  apply Sem_groups in H2; [|reflexivity].
  apply Sem_groups in H3; [|reflexivity].
  apply Sem_groups in H4; [|reflexivity].
  apply Sem_groups in H6; [|reflexivity].
  apply Sem_groups in H7; [|reflexivity].
  apply Sem_groups in H8; [|reflexivity].
  apply Sem_groups in H10; [|reflexivity].
  destruct H5 as (m5 & Hm5 & ->).
  pose proof (Sem_groups (Plus notQuote) eq_refl _ _ Hm5) as Hg5.
  apply Sem_Plus_Char in Hm5 as (target & Hne & Hb5 & Htarget).
  destruct H9 as (m9 & Hm9 & ->).
  pose proof (Sem_groups (Star (NoneOf (txt "<"))) eq_refl _ _ Hm9) as Hg9.
  apply Sem_Star_Char in Hm9 as (label & Hb9 & Hlabel).
  exists target, label. split; [|split; [exact Hne|split]].
  - rewrite H10, (captured_text 2 s8 m9 label Hb9), Hg9, H8, H7, H6.
    rewrite (captured_text 1 s4 m5 target Hb5), Hg5, H4, H3, H2, H1.
    reflexivity.
  - eapply List.Forall_impl; [|exact Htarget]. cbn beta.
    intros c Hc. cbn in Hc. apply negb_true_iff in Hc.
    apply orb_false_iff in Hc as (Hq & Hc).
    apply orb_false_iff in Hc as (Ha & _).
    apply Ascii.eqb_neq in Hq, Ha. split; assumption.
  - eapply List.Forall_impl; [|exact Hlabel]. cbn beta.
    intros c Hc. cbn in Hc. apply negb_true_iff in Hc.
    apply orb_false_iff in Hc as (Hlt & _).
    apply Ascii.eqb_neq in Hlt. exact Hlt.
Qed.

(** X22: the shape of the links [extractLinks] returns.  A target is
    never empty and never contains a quote character, and the anchor
    text, trimmed, never contains an opening angle bracket. *)
Theorem extractLinks_shape (content sourceFile : text) :
  Forall (fun l =>
            href l <> []
            /\ Forall (fun c => c <> dq /\ c <> "'"%char) (href l)
            /\ Forall (fun c => c <> "<"%char) (text_ l))
    (extractLinks content sourceFile).
Proof.
  apply List.Forall_forall. intros l Hl.
  apply in_extractLinks in Hl as (m & Hm & Hl).
  apply scan_exec in Hm as (bef & aft & e & He & ->).
  apply linkRegex_groups in He as (target & label & Hg & Hne & Ht & Hlab).
  unfold linkOfMatch in Hl.
  assert (G1 : group 1 (matchFrom bef e) = target)
    by (unfold group, matchFrom; cbn [caps]; rewrite Hg; reflexivity).
  assert (G2 : group 2 (matchFrom bef e) = label)
    by (unfold group, matchFrom; cbn [caps]; rewrite Hg; reflexivity).
  rewrite G1, G2 in Hl.
  destruct (_ || _); [discriminate|].
  destruct (startsWith _ _); [discriminate|].
  injection Hl as <-. cbn [href text_].
  split; [exact Hne|]. split; [exact Ht|].
  apply Forall_trim. exact Hlab.
Qed.

End LinkShapeFacts.

(** ** What the token audit reports and suggests *)

Section VerifyShapeFacts.

Import VerifyDesignTokens.

(** X23: what [findHardcodedValues] never reports.  No value it reports
    contains any of the allowed exceptions anywhere inside it; with the
    exception [0] in the list, a value that contains the digit 0 is never
    reported. *)
Theorem findHardcodedValues_never_reports (content filePath : text) :
  Forall (fun issue =>
            Forall (fun exception => includes exception (h_value issue) = false)
              ALLOWED_EXCEPTIONS
            /\ ~ In "0"%char (h_value issue))
    (findHardcodedValues content filePath).
Proof.
  apply List.Forall_forall. intros issue Hissue.
  unfold findHardcodedValues in Hissue.
  apply in_forEachIndexed in Hissue as (p & j & _ & Hissue).
  apply hardcodedOfPattern_reports in Hissue as (m & _ & Hex & ->).
  cbn [h_value].
  assert (Hall : forall exception, In exception ALLOWED_EXCEPTIONS ->
                   includes exception (trim (matched m)) = false).
  { intros exception Hin.
    destruct (includes exception (trim (matched m))) eqn:Hinc; [|reflexivity].
    assert (His : isException (matched m) = true).
    { unfold isException. apply existsb_exists. exists exception.
      split; [exact Hin|].
      eapply includes_trans; [exact Hinc | apply includes_trim]. }
    congruence. }
  split; [apply List.Forall_forall; exact Hall|].
  intros Hzero. apply in_split in Hzero as (pre & post & Hsplit).
  assert (Hinc : includes (txt "0") (trim (matched m)) = true).
  { apply includes_spec. exists pre, post. exact Hsplit. }
  rewrite Hall in Hinc; [discriminate|].
  unfold ALLOWED_EXCEPTIONS. apply List.in_map_iff.
  exists "0"%string. split; [reflexivity|]. simpl. auto.
Qed.






End VerifyShapeFacts.
